(** * LaTeX compiler with autofix: a shallow embedding of [Latex Compiler/compiler.py]

    The development follows the three classes of the module:
    - [LatexAutoFixer]: the text repair rules and their pipeline,
    - [CompilationWorker]: one toolchain invocation and the retry loop,
    - [LatexCompiler]: the facade that remembers the last artifact.

    Python [str] values are lists of characters; the built-in operations the
    module relies on ([in], [find], [rfind], [count], [replace], [split],
    [join], [strip], [lower], the regular expressions with a fixed pattern)
    are written out in [PyStr] and [PyRe]. *)

From Stdlib Require Import List Ascii Arith Lia Bool PeanoNat.
From Stdlib Require String DecimalString.
Import ListNotations.
Import String.StringSyntax Ascii.AsciiSyntax.
Local Open Scope string_scope.
Local Open Scope list_scope.
Local Open Scope nat_scope.

(** ** Python strings *)

Module PyStr.

Definition str := list ascii.

(** A literal of the source text. *)
Definition lit (s : String.string) : str := String.list_ascii_of_string s.

(** The line feed, written '\n' in the source. *)
Definition nl : ascii := ascii_of_nat 10.

Fixpoint eqb (a b : str) : bool :=
  match a, b with
  | [], [] => true
  | x :: a', y :: b' => Ascii.eqb x y && eqb a' b'
  | _, _ => false
  end.

(** [s.startswith(pat)] *)
Fixpoint startswith (pat s : str) : bool :=
  match pat, s with
  | [], _ => true
  | p :: pat', c :: s' => Ascii.eqb p c && startswith pat' s'
  | _ :: _, [] => false
  end.

(** [s.find(pat)], with [None] for -1. *)
Fixpoint find (pat s : str) : option nat :=
  if startswith pat s then Some 0
  else match s with
       | [] => None
       | _ :: s' => option_map S (find pat s')
       end.

(** [pat in s] *)
Definition contains (pat s : str) : bool :=
  match find pat s with Some _ => true | None => false end.

(** [s.rfind(c)] for a one-character needle, with [None] for -1. *)
Fixpoint rfind_char (c : ascii) (s : str) : option nat :=
  match s with
  | [] => None
  | x :: s' =>
      match rfind_char c s' with
      | Some i => Some (S i)
      | None => if Ascii.eqb x c then Some 0 else None
      end
  end.

(** [s.count(c)] for a one-character needle. *)
Fixpoint count_char (c : ascii) (s : str) : nat :=
  match s with
  | [] => 0
  | x :: s' => (if Ascii.eqb x c then 1 else 0) + count_char c s'
  end.

(** [s.count(pat)]: occurrences counted from the left without overlap.
    [skip] is the number of characters still covered by the last match. *)
Fixpoint count_from (pat : str) (skip : nat) (s : str) : nat :=
  match s with
  | [] => 0
  | _ :: s' =>
      match skip with
      | S k => count_from pat k s'
      | 0 =>
          if startswith pat s
          then S (count_from pat (length pat - 1) s')
          else count_from pat 0 s'
      end
  end.

Definition count (pat s : str) : nat :=
  match pat with
  | [] => S (length s)
  | _ :: _ => count_from pat 0 s
  end.

(** [s.replace(old, new)]: every occurrence, from the left, without overlap. *)
Fixpoint replace_from (old new : str) (skip : nat) (s : str) : str :=
  match s with
  | [] => []
  | c :: s' =>
      match skip with
      | S k => replace_from old new k s'
      | 0 =>
          if startswith old s
          then new ++ replace_from old new (length old - 1) s'
          else c :: replace_from old new 0 s'
      end
  end.

Definition replace (old new s : str) : str :=
  match old with
  | [] => new ++ flat_map (fun c => c :: new) s
  | _ :: _ => replace_from old new 0 s
  end.

(** [c * n] *)
Definition times (s : str) (n : nat) : str := concat (repeat s n).

(** [s.split('\n')] *)
Fixpoint split_lines (s : str) : list str :=
  match s with
  | [] => [[]]
  | c :: s' =>
      if Ascii.eqb c nl then [] :: split_lines s'
      else match split_lines s' with
           | l :: ls => (c :: l) :: ls
           | [] => [[c]]
           end
  end.

(** ['\n'.join(lines)] *)
Fixpoint join_lines (lines : list str) : str :=
  match lines with
  | [] => []
  | [l] => l
  | l :: ls => l ++ nl :: join_lines ls
  end.

(** [c.isspace()] on the code points below 256. *)
Definition isspace (c : ascii) : bool :=
  let n := nat_of_ascii c in
  ((9 <=? n) && (n <=? 13)) || ((28 <=? n) && (n <=? 32))
  || (n =? 133) || (n =? 160).

Fixpoint lstrip (s : str) : str :=
  match s with
  | c :: s' => if isspace c then lstrip s' else s
  | [] => []
  end.

(** [s.strip()] *)
Definition strip (s : str) : str := rev (lstrip (rev (lstrip s))).

(** [c.lower()] on the code points below 256. *)
Definition lower_char (c : ascii) : ascii :=
  let n := nat_of_ascii c in
  if ((65 <=? n) && (n <=? 90))
     || ((192 <=? n) && (n <=? 222) && negb (n =? 215))
  then ascii_of_nat (n + 32) else c.

Definition lower (s : str) : str := map lower_char s.

(** [str(n)] for a non-negative integer. *)
Definition of_nat (n : nat) : str :=
  lit (DecimalString.NilEmpty.string_of_uint (Nat.to_uint n)).

(** [s[-n:]] for n > 0 *)
Definition last_chars (n : nat) (s : str) : str := skipn (length s - n) s.

(** [l.insert(i, x)] for 0 <= i. *)
Definition list_insert {A} (i : nat) (x : A) (l : list A) : list A :=
  firstn i l ++ x :: skipn i l.

End PyStr.

Import PyStr.

(** ** The regular expressions of the module *)

Module PyRe.

(** [enumerate(l)] *)
Definition enumerate {A} (l : list A) : list (nat * A) :=
  combine (seq 0 (length l)) l.

Definition BEGIN_LSTLISTING : str := lit "\begin{lstlisting}".
Definition END_LSTLISTING : str := lit "\end{lstlisting}".

(** Leftmost match of [\\begin\{lstlisting\}.*?\\end\{lstlisting\}] with
    DOTALL: the first position that carries the begin marker and has an end
    marker after it; the lazy star stops at the first end marker.  The
    result is the pair (start, end) of the match. *)
Fixpoint search_lstlisting (s : str) : option (nat * nat) :=
  let here :=
    if startswith BEGIN_LSTLISTING s
    then match find END_LSTLISTING (skipn (length BEGIN_LSTLISTING) s) with
         | Some k => Some (0, length BEGIN_LSTLISTING + k + length END_LSTLISTING)
         | None => None
         end
    else None in
  match here with
  | Some m => Some m
  | None =>
      match s with
      | [] => None
      | _ :: s' =>
          match search_lstlisting s' with
          | Some (i, j) => Some (S i, S j)
          | None => None
          end
      end
  end.

(** [re.split(r'(\\begin\{lstlisting\}.*?\\end\{lstlisting\})', s, flags=re.DOTALL)]:
    the text before each match, the match itself (the pattern is one
    capturing group), and so on; the last part is the text after the last
    match.  Every match is at least 34 characters long, so [length s] rounds
    are enough. *)
Fixpoint split_lstlisting_rounds (rounds : nat) (s : str) : list str :=
  match rounds with
  | 0 => [s]
  | S r =>
      match search_lstlisting s with
      | None => [s]
      | Some (i, j) =>
          firstn i s :: firstn (j - i) (skipn i s)
                 :: split_lstlisting_rounds r (skipn j s)
      end
  end.

Definition split_lstlisting (s : str) : list str :=
  split_lstlisting_rounds (length s) s.

(** [\w] on the code points below 256. *)
Definition is_word (c : ascii) : bool :=
  let n := nat_of_ascii c in
  ((48 <=? n) && (n <=? 57)) || ((65 <=? n) && (n <=? 90)) || (n =? 95)
  || ((97 <=? n) && (n <=? 122))
  || (n =? 170) || (n =? 178) || (n =? 179) || (n =? 181) || (n =? 185)
  || (n =? 186) || ((188 <=? n) && (n <=? 190))
  || ((192 <=? n) && (n <=? 214)) || ((216 <=? n) && (n <=? 246))
  || (248 <=? n).

(** The longest run of word characters at the head of [s], and the rest. *)
Fixpoint span_word (s : str) : str * str :=
  match s with
  | c :: s' =>
      if is_word c then let '(w, r) := span_word s' in (c :: w, r)
      else ([], s)
  | [] => ([], [])
  end.

(** A match of [marker(\w+)\}] at the head of [s], where [marker] is the
    text [\begin{] or [\end{]; the result is group 1. *)
Definition match_env (marker s : str) : option str :=
  if startswith marker s then
    match span_word (skipn (length marker) s) with
    | (c :: w, r) => if startswith (lit "}") r then Some (c :: w) else None
    | ([], _) => None
    end
  else None.

(** Group 1 of every match of [re.finditer] for [\\begin\{(\w+)\}] or
    [\\end\{(\w+)\}], from the left and without overlap. *)
Fixpoint finditer_env (marker : str) (skip : nat) (s : str) : list str :=
  match s with
  | [] => []
  | _ :: s' =>
      match skip with
      | S k => finditer_env marker k s'
      | 0 =>
          match match_env marker s with
          | Some w => w :: finditer_env marker (length marker + length w) s'
          | None => finditer_env marker 0 s'
          end
      end
  end.

(** [.*?] followed by [suffix]: the shortest run without a line feed. *)
Fixpoint lazy_dots (suffix s : str) : option str :=
  if startswith suffix s then Some []
  else match s with
       | [] => None
       | c :: s' =>
           if Ascii.eqb c nl then None
           else option_map (cons c) (lazy_dots suffix s')
       end.

(** [.+?] followed by [suffix]. *)
Definition lazy_dots1 (suffix s : str) : option str :=
  match s with
  | [] => None
  | c :: s' =>
      if Ascii.eqb c nl then None
      else option_map (cons c) (lazy_dots suffix s')
  end.

(** [re.search(prefix + r'(.+?)' + suffix, s)], group 1 of the leftmost match. *)
Fixpoint search_group (prefix suffix s : str) : option str :=
  let here :=
    if startswith prefix s
    then lazy_dots1 suffix (skipn (length prefix) s)
    else None in
  match here with
  | Some g => Some g
  | None =>
      match s with
      | [] => None
      | _ :: s' => search_group prefix suffix s'
      end
  end.

(** [re.search(r"File `(.+?)\.sty' not found", error_log)] *)
Definition search_missing_package (error_log : str) : option str :=
  search_group (lit "File `") (lit ".sty' not found") error_log.

(** [re.search(r"Environment (.+?) undefined", error_log)] *)
Definition search_undefined_environment (error_log : str) : option str :=
  search_group (lit "Environment ") (lit " undefined") error_log.

(** The one pattern that is assembled at run time,
    [rf'(\\usepackage(?:\[.*?\])?\{{{package_name}\}})']: the package name is
    spliced in as it is and read by the regular-expression engine, so what
    the pattern matches depends on the engine's syntax.  The two uses of the
    pattern are taken as an interface. *)
Record usepackage_re := {
  (** [re.search(pattern, code)] finds a match *)
  re_search : str -> str -> bool;
  (** [re.sub(pattern, r'% \1  % Package not available', code)] *)
  re_sub : str -> str -> str
}.

Definition USEPACKAGE : str := lit "\usepackage".

(** Length of a match of the pattern at the head of [s], for a package name
    without characters special to the engine: the optional bracket group is
    tried first, then the name directly. *)
Definition match_usepackage (package_name s : str) : option nat :=
  if startswith USEPACKAGE s then
    let r := skipn (length USEPACKAGE) s in
    let name := lit "{" ++ package_name ++ lit "}" in
    let bracket :=
      match r with
      | c :: r' =>
          if Ascii.eqb c "[" then
            match lazy_dots (lit "]" ++ name) r' with
            | Some w => Some (length USEPACKAGE + 1 + length w + 1 + length name)
            | None => None
            end
          else None
      | [] => None
      end in
    match bracket with
    | Some n => Some n
    | None =>
        if startswith name r then Some (length USEPACKAGE + length name)
        else None
    end
  else None.

Fixpoint literal_search (package_name s : str) : bool :=
  match match_usepackage package_name s with
  | Some _ => true
  | None => match s with [] => false | _ :: s' => literal_search package_name s' end
  end.

Fixpoint literal_sub_from (package_name : str) (skip : nat) (s : str) : str :=
  match s with
  | [] => []
  | c :: s' =>
      match skip with
      | S k => literal_sub_from package_name k s'
      | 0 =>
          match match_usepackage package_name s with
          | Some n =>
              lit "% " ++ firstn n s ++ lit "  % Package not available"
                  ++ literal_sub_from package_name (n - 1) s'
          | None => c :: literal_sub_from package_name 0 s'
          end
      end
  end.

(** The engine on package names made of letters, digits and hyphens. *)
Definition literal_usepackage_re : usepackage_re :=
  {| re_search := literal_search;
     re_sub := fun package_name code => literal_sub_from package_name 0 code |}.

End PyRe.

Import PyRe.

(** ** class LatexAutoFixer *)

Module LatexAutoFixer.

Definition DOCUMENTCLASS : str := lit "\documentclass".
Definition BEGIN_DOCUMENT : str := lit "\begin{document}".
Definition END_DOCUMENT : str := lit "\end{document}".

(** What every rule returns: the text and the fix records. *)
Definition fixed := (str * list str)%type.

(** The open environments left by the two loops: every begin marker is
    pushed, then every end marker pops the top when it names it. *)
Definition open_environments (code : str) : list str :=
  let open_envs :=
    fold_left (fun open_envs env => open_envs ++ [env])
              (finditer_env (lit "\begin{") 0 code) [] in
  fold_left
    (fun open_envs env =>
       match open_envs with
       | [] => open_envs
       | _ :: _ =>
           if eqb env (last open_envs []) then removelast open_envs
           else open_envs
       end)
    (finditer_env (lit "\end{") 0 code) open_envs.

Definition fix_truncated_document (code : str) : fixed :=
  if negb (contains END_DOCUMENT code) then
    let '(code, fixes) :=
      fold_left
        (fun '(code, fixes) env =>
           (code ++ [nl] ++ lit "\end{" ++ env ++ lit "}",
            fixes ++ [lit "Closed unclosed environment: " ++ env]))
        (rev (open_environments code)) (code, []) in
    (code ++ [nl] ++ END_DOCUMENT,
     fixes ++ [lit "Added missing \end{document}"])
  else (code, []).

(** The shape shared by the count-based rules: when the begin markers of
    [env] outnumber its end markers, the missing end markers are appended. *)
Definition close_unclosed (env : str) '((code, fixes) : fixed) : fixed :=
  let begin_count := count (lit "\begin{" ++ env ++ lit "}") code in
  let end_count := count (lit "\end{" ++ env ++ lit "}") code in
  if end_count <? begin_count then
    let diff := begin_count - end_count in
    (code ++ times ([nl] ++ lit "\end{" ++ env ++ lit "}") diff,
     fixes ++ [lit "Closed " ++ of_nat diff ++ lit " unclosed " ++ env
                   ++ lit " environment(s)"])
  else (code, fixes).

Definition fix_lstlisting_issues (code : str) : fixed :=
  close_unclosed (lit "lstlisting") (code, []).

Definition fix_tabularx_issues (code : str) : fixed :=
  close_unclosed (lit "longtable") (close_unclosed (lit "tabularx") (code, [])).

Definition fix_description_issues (code : str) : fixed :=
  close_unclosed (lit "description") (code, []).

Definition fix_multicol_issues (code : str) : fixed :=
  close_unclosed (lit "multicols") (code, []).

(** [total_open] and [total_close]: the braces of the parts at even
    positions of the split, the ones outside the listings. *)
Definition brace_totals (code : str) : nat * nat :=
  fold_left
    (fun '(total_open, total_close) '(i, part) =>
       if i mod 2 =? 0
       then (total_open + count_char "{" part,
             total_close + count_char "}" part)
       else (total_open, total_close))
    (enumerate (split_lstlisting code)) (0, 0).

(** One round of the removal loop: the last closing brace is cut out. *)
Definition remove_last_brace (code : str) : str :=
  match rfind_char "}" code with
  | Some last_idx => firstn last_idx code ++ skipn (last_idx + 1) code
  | None => code
  end.

Definition fix_brace_imbalance (code : str) : fixed :=
  let '(total_open, total_close) := brace_totals code in
  if total_close <? total_open then
    let diff := total_open - total_close in
    let code :=
      if contains END_DOCUMENT code
      then replace END_DOCUMENT (times (lit "}") diff ++ [nl] ++ END_DOCUMENT) code
      else code ++ times (lit "}") diff in
    (code, [lit "Added " ++ of_nat diff ++ lit " missing closing brace(s)"])
  else if total_open <? total_close then
    let diff := total_close - total_open in
    (Nat.iter diff remove_last_brace code,
     [lit "Removed " ++ of_nat diff ++ lit " extra closing brace(s)"])
  else (code, []).

(** The directives after which the begin-document marker may be placed. *)
Definition preamble_directives : list str :=
  [ lit "\documentclass"; lit "\usepackage"; lit "\title"; lit "\author";
    lit "\date"; lit "\newcommand"; lit "\definecolor";
    lit "\lstdefinestyle"; lit "\pagestyle"; lit "\fancyhf"; lit "\rhead";
    lit "\lhead"; lit "\rfoot" ].

Definition ensure_document_structure (code : str) : fixed :=
  let '(code, fixes) :=
    if negb (contains DOCUMENTCLASS code)
    then (lit "\documentclass[12pt]{article}" ++ [nl] ++ code,
          [lit "Added missing \documentclass"])
    else (code, []) in
  if negb (contains BEGIN_DOCUMENT code) then
    let lines := split_lines code in
    let insert_idx :=
      fold_left
        (fun insert_idx '(i, line) =>
           let stripped := strip line in
           if existsb (fun d => startswith d stripped) preamble_directives
           then i + 1 else insert_idx)
        (enumerate lines) 0 in
    (join_lines (list_insert insert_idx BEGIN_DOCUMENT lines),
     fixes ++ [lit "Added missing \begin{document}"])
  else (code, fixes).

Definition fix_undefined_environment (code env_name : str) : fixed :=
  if contains (lit "\begin{" ++ env_name ++ lit "}") code then
    let code :=
      replace (lit "\begin{" ++ env_name ++ lit "}")
              (lit "% Undefined environment: " ++ env_name ++ [nl]
                   ++ lit "\begin{verbatim}") code in
    let code :=
      replace (lit "\end{" ++ env_name ++ lit "}")
              (lit "\end{verbatim}" ++ [nl] ++ lit "% End: " ++ env_name) code in
    (code, [lit "Replaced undefined environment: " ++ env_name])
  else (code, []).

(** A rule applied to the running text, its records added to the list. *)
Definition apply_rule (rule : str -> fixed) '((code, all_fixes) : fixed) : fixed :=
  let '(code, fixes) := rule code in (code, all_fixes ++ fixes).

(** Steps 1 to 7 of [comprehensive_fix], which do not read the error log. *)
Definition structural_fixes (code : str) : fixed :=
  apply_rule fix_truncated_document
    (apply_rule fix_brace_imbalance
      (apply_rule fix_multicol_issues
        (apply_rule fix_description_issues
          (apply_rule fix_tabularx_issues
            (apply_rule fix_lstlisting_issues
              (apply_rule ensure_document_structure (code, []))))))).

Section DiagnosticDriven.

Variable re : usepackage_re.

Definition fix_package_not_found (code package_name : str) : fixed :=
  if re_search re package_name code
  then (re_sub re package_name code,
        [lit "Commented out unavailable package: " ++ package_name])
  else (code, []).

Definition comprehensive_fix (code error_log : str) : fixed :=
  let st := structural_fixes code in
  let st :=
    match search_missing_package error_log with
    | Some pkg_name =>
        apply_rule (fun code => fix_package_not_found code pkg_name) st
    | None => st
    end in
  match search_undefined_environment error_log with
  | Some env_name =>
      apply_rule (fun code => fix_undefined_environment code env_name) st
  | None => st
  end.

End DiagnosticDriven.

End LatexAutoFixer.

Import LatexAutoFixer.

(** ** class CompilationWorker *)

Module CompilationWorker.

Definition MAX_FIX_ATTEMPTS : nat := 5.

(** The attributes set by [__init__] that the methods read. *)
Record Worker := {
  latex_code : str;
  output_name : str;
  autofix : bool;
  quick_mode : bool;
  draft_mode : bool
}.

(** How a pass of the toolchain ends: it exits, [subprocess.TimeoutExpired]
    is raised, or another exception with the given text is raised. *)
Inductive pass_end :=
| Exited
| TimedOut
| Raised (message : str).

(** What one call of [_compile] meets outside the program. *)
Record World := {
  (** the cache directory returned by [get_cache_dir] *)
  temp_dir : str;
  (** the text of the exception raised while the .tex file is written *)
  write_error : option str;
  (** [shutil.which("pdflatex")] *)
  which_pdflatex : option str;
  (** the first pass, and in full mode the second one *)
  pass1 : pass_end;
  pass2 : pass_end;
  (** the contents of the .log file after the passes, when it exists *)
  log_file : option str;
  (** whether the .pdf file exists after the passes *)
  pdf_exists : bool
}.

(** [os.path.join(a, b)] on a POSIX system. *)
Definition path_join (a b : str) : str :=
  if startswith (lit "/") b then b
  else match a with
       | [] => b
       | _ :: _ => if Ascii.eqb (last a " "%char) "/" then a ++ b
                   else a ++ lit "/" ++ b
       end.

(** The loop of [_extract_error] over the lines of the log; it stops at
    fifteen collected lines. *)
Fixpoint collect_error_lines (lines error_lines : list str) : list str :=
  match lines with
  | [] => error_lines
  | line :: rest =>
      if startswith (lit "!") line || contains (lit "Error") line
         || contains (lit "error") (lower line)
      then
        let error_lines := error_lines ++ [strip line] in
        if 15 <=? length error_lines then error_lines
        else collect_error_lines rest error_lines
      else collect_error_lines rest error_lines
  end.

Definition _extract_error (log_file : option str) (stdout : str) : str :=
  let '(error_lines, full_log) :=
    match log_file with
    | Some content => (collect_error_lines (split_lines content) [], content)
    | None => ([], [])
    end in
  match error_lines with
  | _ :: _ =>
      join_lines error_lines ++ [nl; nl] ++ lit "--- Log excerpt ---" ++ [nl]
                 ++ last_chars 3000 full_log
  | [] =>
      match full_log with
      | _ :: _ => last_chars 3000 full_log
      | [] => lit "Unknown error - check log file"
      end
  end.

Definition outcome := (bool * str * str)%type.

Definition NOT_FOUND : str :=
  lit "pdflatex not found. Install TeX Live or MiKTeX.".

(** The passes of one call: one in quick mode, two in full mode. *)
Definition passes (self : Worker) (w : World) : pass_end :=
  if quick_mode self then pass1 w
  else match pass1 w with
       | Exited => pass2 w
       | e => e
       end.

(** The check on the log that draft mode makes first; [None] when the
    check does not return and the artifact check decides. *)
Definition draft_check (self : Worker) (w : World) : option outcome :=
  if draft_mode self then
    match log_file w with
    | Some log_content =>
        if contains (lit "No pages of output") log_content
           || negb (contains (lit "Output written") log_content)
        then Some (true, [], [])
        else if contains (lit "!") log_content
        then Some (false, [], _extract_error (log_file w) [])
        else Some (true, [], [])
    | None => None
    end
  else None.

(** [_compile]: the result triple (success, pdf_path, error).  The progress
    and page_ready signals of the method are not part of the result. *)
Definition _compile (self : Worker) (w : World) (latex_code : str) : outcome :=
  let pdf_file := path_join (temp_dir w) (output_name self ++ lit ".pdf") in
  match write_error w with
  | Some e => (false, [], lit "Error: " ++ e)
  | None =>
      match which_pdflatex w with
      | None | Some [] => (false, [], NOT_FOUND)
      | Some (_ :: _) =>
          match passes self w with
          | TimedOut => (false, [], lit "Compilation timed out.")
          | Raised e => (false, [], lit "Error: " ++ e)
          | Exited =>
              match draft_check self w with
              | Some r => r
              | None =>
                  if pdf_exists w then (true, pdf_file, [])
                  else (false, [], _extract_error (log_file w) [])
              end
          end
      end
  end.

(** What [run] does that can be seen from outside: the signals it emits,
    its calls of [_compile], and the growth of [self.all_fixes]. *)
Inductive action :=
| Progress (message : str)
| Finished (success : bool) (pdf_path error : str) (fixes : list str)
| Compile (latex_code : str)
| Extend (fixes : list str).

Definition is_nil {A} (l : list A) : bool :=
  match l with [] => true | _ :: _ => false end.

Section Run.

Variable re : usepackage_re.
(** The bound of the retry loop, [self.MAX_FIX_ATTEMPTS]. *)
Variable max_fix_attempts : nat.
Variable self : Worker.
(** The world met by the call of [_compile] in each round of the loop. *)
Variable worlds : nat -> World.

(** The [for attempt in range(...)] loop, on the rounds still to run. *)
Fixpoint attempts (range : list nat) (current_code : str)
         (all_fixes : list str) : list action :=
  match range with
  | [] => []
  | attempt :: range' =>
      Progress (lit "Compiling... (attempt " ++ of_nat (attempt + 1) ++ lit ")")
      :: Compile current_code
      :: let '(success, pdf_path, error) :=
           _compile self (worlds attempt) current_code in
         if success then
           [Progress (lit "Done!"); Finished true pdf_path [] all_fixes]
         else if negb (autofix self) || (max_fix_attempts <=? attempt) then
           [Finished false [] error all_fixes]
         else
           Progress (lit "Analyzing errors (attempt " ++ of_nat (attempt + 1)
                         ++ lit ")...")
           :: let '(fixed_code, fixes) :=
                comprehensive_fix re current_code error in
              if eqb fixed_code current_code || is_nil fixes then
                [Finished false [] error all_fixes]
              else
                Extend fixes
                :: Progress (lit "Applied " ++ of_nat (length fixes)
                                 ++ lit " fix(es), retrying...")
                :: attempts range' fixed_code (all_fixes ++ fixes)
  end.

(** The pre-pass of [run]: the actions, the text and the fix list it
    hands to the loop. *)
Definition pre_check : list action * str * list str :=
  if autofix self then
    let '(current_code, fixes) := comprehensive_fix re (latex_code self) [] in
    (Progress (lit "Pre-checking document structure...")
     :: (if is_nil fixes then []
         else [Extend fixes;
               Progress (lit "Applied " ++ of_nat (length fixes)
                             ++ lit " pre-compilation fix(es)")]),
     current_code, fixes)
  else ([], latex_code self, []).

Definition run_bounded : list action :=
  let '(pre, current_code, all_fixes) := pre_check in
  pre ++ attempts (seq 0 (max_fix_attempts + 1)) current_code all_fixes.

End Run.

Definition run (re : usepackage_re) (self : Worker) (worlds : nat -> World)
  : list action :=
  run_bounded re MAX_FIX_ATTEMPTS self worlds.

(** The texts handed to [_compile] in a trace, in the order of the calls. *)
Definition compiled (trace : list action) : list str :=
  flat_map (fun a => match a with Compile code => [code] | _ => [] end) trace.

(** The number of calls of [_compile] in a trace. *)
Definition compile_calls (trace : list action) : nat :=
  length (compiled trace).

(** The emissions of the finished signal in a trace. *)
Definition finished_signals (trace : list action) : list action :=
  filter (fun a => match a with Finished _ _ _ _ => true | _ => false end) trace.

(** The fix records added to [self.all_fixes] in a trace. *)
Definition extended_fixes (trace : list action) : list str :=
  flat_map (fun a => match a with Extend fixes => fixes | _ => [] end) trace.

(** What the finished signal of [run] carries for a result of [_compile]
    and the fix list at that point. *)
Definition finished_for (r : outcome) (fixes : list str) : action :=
  let '(success, pdf_path, error) := r in
  if success then Finished true pdf_path [] fixes
  else Finished false [] error fixes.

End CompilationWorker.

Import CompilationWorker.

(** ** class LatexCompiler *)

Module LatexCompiler.

(** The attributes of the facade. *)
Record Facade := {
  autofix : bool;
  quick_mode : bool;
  draft_mode : bool;
  worker : option Worker;
  last_pdf_path : option str
}.

(** The signals of the facade. *)
Inductive signal :=
| compilation_started
| compilation_finished (success : bool) (pdf_path error : str) (fixes : list str).

Definition __init__ (autofix : bool) : Facade :=
  {| autofix := autofix; quick_mode := false; draft_mode := false;
     worker := None; last_pdf_path := None |}.

(** The worker that [compile] creates, which reads the switches of the
    facade at this point. *)
Definition new_worker (self : Facade) (latex_code output_name : str) : Worker :=
  {| CompilationWorker.latex_code := latex_code;
     CompilationWorker.output_name := output_name;
     CompilationWorker.autofix := autofix self;
     CompilationWorker.quick_mode := quick_mode self;
     CompilationWorker.draft_mode := draft_mode self |}.

(** [compile]: the started signal and the new worker. *)
Definition compile (self : Facade) (latex_code output_name : str)
  : Facade * list signal :=
  ({| autofix := autofix self; quick_mode := quick_mode self;
      draft_mode := draft_mode self;
      worker := Some (new_worker self latex_code output_name);
      last_pdf_path := last_pdf_path self |},
   [compilation_started]).

Definition set_quick_mode (self : Facade) (enabled : bool) : Facade :=
  {| autofix := autofix self; quick_mode := enabled;
     draft_mode := draft_mode self; worker := worker self;
     last_pdf_path := last_pdf_path self |}.

Definition set_draft_mode (self : Facade) (enabled : bool) : Facade :=
  {| autofix := autofix self; quick_mode := quick_mode self;
     draft_mode := enabled; worker := worker self;
     last_pdf_path := last_pdf_path self |}.

Definition set_autofix (self : Facade) (enabled : bool) : Facade :=
  {| autofix := enabled; quick_mode := quick_mode self;
     draft_mode := draft_mode self; worker := worker self;
     last_pdf_path := last_pdf_path self |}.

Definition _on_finished (self : Facade) (success : bool)
           (pdf_path error : str) (fixes : list str) : Facade * list signal :=
  (if success
   then {| autofix := autofix self; quick_mode := quick_mode self;
           draft_mode := draft_mode self; worker := worker self;
           last_pdf_path := Some pdf_path |}
   else self,
   [compilation_finished success pdf_path error fixes]).

Definition get_last_pdf_path (self : Facade) : option str :=
  last_pdf_path self.

(** The slot connected to the worker's finished signal, run on every
    emission of a trace. *)
Fixpoint deliver (self : Facade) (trace : list action) : Facade :=
  match trace with
  | [] => self
  | Finished success pdf_path error fixes :: trace' =>
      deliver (fst (_on_finished self success pdf_path error fixes)) trace'
  | _ :: trace' => deliver self trace'
  end.

(** One compile request from start to end: [compile], the run of the
    worker it starts, and the delivery of the worker's finished signal. *)
Definition request (re : usepackage_re) (self : Facade)
           (latex_code output_name : str) (worlds : nat -> World) : Facade :=
  let '(self, _) := compile self latex_code output_name in
  match worker self with
  | Some w => deliver self (run re w worlds)
  | None => self
  end.

End LatexCompiler.

(** ** Sample documents and worlds *)

Module Samples.

(** A document that the structural rules leave alone. *)
Definition plain_document : str :=
  lit "\documentclass{article}" ++ [nl] ++ lit "\begin{document}" ++ [nl]
      ++ lit "hello" ++ [nl] ++ lit "\end{document}".

(** A document with one opening brace too many and two end markers. *)
Definition two_end_markers : str :=
  lit "{\end{document}\end{document}".

Definition worker_for (latex_code : str) (autofix draft_mode : bool) : Worker :=
  {| latex_code := latex_code; output_name := lit "output";
     CompilationWorker.autofix := autofix; quick_mode := false;
     draft_mode := draft_mode |}.

(** A machine on which pdflatex is not installed. *)
Definition no_pdflatex : World :=
  {| temp_dir := lit "/tmp/latex_cache_0"; write_error := None;
     which_pdflatex := None; pass1 := Exited; pass2 := Exited;
     log_file := None; pdf_exists := false |}.

(** A toolchain that ran and left the given log and, or not, an artifact. *)
Definition after_passes (log_file : option str) (pdf_exists : bool) : World :=
  {| temp_dir := lit "/tmp/latex_cache_0"; write_error := None;
     which_pdflatex := Some (lit "/usr/bin/pdflatex");
     pass1 := Exited; pass2 := Exited;
     log_file := log_file; pdf_exists := pdf_exists |}.

(** A closing brace too many, and a listing with a brace at the end. *)
Definition listing_at_the_end : str :=
  lit "}\begin{lstlisting}}\end{lstlisting}".

(** Three opening braces and one closing brace before the end marker. *)
Definition three_opens_one_close : str :=
  lit "{{{x}" ++ [nl] ++ lit "\end{document}".

(** A document that asks for a package whose name has an open
    parenthesis, and the log that the toolchain writes for it. *)
Definition odd_package : str :=
  lit "\documentclass{article}" ++ [nl] ++ lit "\usepackage{a(b}" ++ [nl]
      ++ lit "\begin{document}" ++ [nl] ++ lit "x" ++ [nl]
      ++ lit "\end{document}".

Definition odd_package_log : str :=
  lit "! LaTeX Error: File `a(b.sty' not found.".

(** A truncated document: the list is closed, the centred block and the
    document are not. *)
Definition truncated_after_list : str :=
  lit "\begin{document}\begin{itemize}\item x\end{itemize}\begin{center}y".

End Samples.

(** ** The reconstruction of open blocks in the words of the specification *)

Module Specification.

(** A begin or end marker of a named block. *)
Inductive marker :=
| Begin (kind : str)
| End (kind : str).

(** Every begin and end marker of the text, in document order. *)
Fixpoint markers (skip : nat) (s : str) : list marker :=
  match s with
  | [] => []
  | _ :: s' =>
      match skip with
      | S k => markers k s'
      | 0 =>
          match match_env (lit "\begin{") s, match_env (lit "\end{") s with
          | Some kind, _ =>
              Begin kind :: markers (length (lit "\begin{") + length kind) s'
          | None, Some kind =>
              End kind :: markers (length (lit "\end{") + length kind) s'
          | None, None => markers 0 s'
          end
      end
  end.

(** An end marker is paired with the most recently opened block of its
    kind that is still unmatched; the stack has the innermost block first. *)
Fixpoint close_most_recent (kind : str) (stack : list str) : list str :=
  match stack with
  | [] => []
  | k :: stack' =>
      if eqb k kind then stack' else k :: close_most_recent kind stack'
  end.

(** The blocks still open at the end of the text, outermost first. *)
Definition still_open (code : str) : list str :=
  rev (fold_left
         (fun stack m =>
            match m with
            | Begin kind => kind :: stack
            | End kind => close_most_recent kind stack
            end)
         (markers 0 code) []).

End Specification.

(** The block kinds of the count-based rules. *)
Definition heavy_environments : list str :=
  [lit "lstlisting"; lit "tabularx"; lit "longtable"; lit "description";
   lit "multicols"].

(** ** Notions used in the statements and proofs *)

(** [pat] occurs in [s]. *)
Definition occurs (pat s : str) : Prop :=
  exists before after, s = before ++ pat ++ after.

(** The parts of a split at even positions, counted from [i]. *)
Fixpoint even_parts (i : nat) (parts : list str) : list str :=
  match parts with
  | [] => []
  | part :: parts' =>
      if i mod 2 =? 0 then part :: even_parts (S i) parts'
      else even_parts (S i) parts'
  end.

(** The text outside the listings. *)
Definition outside_listings (code : str) : str :=
  concat (even_parts 0 (split_lstlisting code)).

(** The begin marker of a listing without its closing brace. *)
Definition BEGIN_LSTLISTING_OPEN : str := lit "\begin{lstlisting".

(** ** The rest of the module and its caller *)

(** [LatexAutoFixer.fix_special_characters]: the text is split at the
    listings, every part outside a listing is compared with itself, and the
    parts are joined again. *)
Definition fix_special_characters (code : str) : fixed :=
  let parts := split_lstlisting code in
  let '(fixed_parts, fixes) :=
    fold_left
      (fun '(fixed_parts, fixes) '(i, part) =>
         let fixes :=
           if i mod 2 =? 0 then
             let original := part in
             if negb (eqb original part)
             then fixes ++ [lit "Fixed unescaped special characters"]
             else fixes
           else fixes in
         (fixed_parts ++ [part], fixes))
      (enumerate parts) ([], []) in
  (concat fixed_parts, fixes).

(** [CompilationWorker.get_cache_dir].  The state is the class attribute
    [_cache_dir] and the paths that exist on disk; [mkdtemp] stands for
    [tempfile.mkdtemp(prefix="latex_cache_")], which picks a path and creates
    the directory. *)
Definition path_exists (disk : list str) (path : str) : bool :=
  existsb (eqb path) disk.

Definition get_cache_dir (mkdtemp : list str -> str)
           (_cache_dir : option str) (disk : list str)
  : option str * list str * str :=
  let fresh :=
    let created := mkdtemp disk in
    (Some created, created :: disk, created) in
  match _cache_dir with
  | None => fresh
  | Some dir => if path_exists disk dir then (_cache_dir, disk, dir) else fresh
  end.

(** The last successful finished signal of a trace, if there is one. *)
Definition last_success (trace : list action) : option str :=
  fold_left
    (fun found a =>
       match a with
       | Finished true pdf_path _ _ => Some pdf_path
       | _ => found
       end)
    trace None.

(** *** class LatexPane, the caller of the facade *)

Module LatexPane.

(** [c.isalnum()] on the code points below 256. *)
Definition isalnum (c : ascii) : bool :=
  let n := nat_of_ascii c in
  ((48 <=? n) && (n <=? 57)) || ((65 <=? n) && (n <=? 90))
  || ((97 <=? n) && (n <=? 122))
  || (n =? 170) || (n =? 178) || (n =? 179) || (n =? 181) || (n =? 185)
  || (n =? 186) || ((188 <=? n) && (n <=? 190))
  || ((192 <=? n) && (n <=? 214)) || ((216 <=? n) && (n <=? 246))
  || (248 <=? n).

(** The characters kept by the filter of [_on_compile]. *)
Definition kept (c : ascii) : bool :=
  isalnum c || Ascii.eqb c " " || Ascii.eqb c "-" || Ascii.eqb c "_".

(** The characters of a sanitized name. *)
Definition safe (c : ascii) : bool :=
  isalnum c || Ascii.eqb c "-" || Ascii.eqb c "_".

(** The name of the output file that [_on_compile] hands to the compiler. *)
Definition doc_name (name_input : str) (pane_id : nat) : str :=
  let doc_name :=
    match strip name_input with
    | [] => lit "Document_" ++ of_nat pane_id
    | _ :: _ => strip name_input
    end in
  let doc_name := strip (filter kept doc_name) in
  replace (lit " ") (lit "_") doc_name.

(** [_on_compile]: nothing is compiled when the editor holds only white
    space; otherwise the text and the sanitized name go to [compile]. *)
Definition _on_compile (editor_text name_input : str) (pane_id : nat)
  : option (str * str) :=
  match strip editor_text with
  | [] => None
  | _ :: _ => Some (editor_text, doc_name name_input pane_id)
  end.

End LatexPane.

(** ** Calls that do not return *)

(** The definitions above describe a run in which every call returns.  Two
    calls of [run] can fail to: the regular-expression engine raises
    [re.error] when the pattern assembled from the package name does not
    compile, and nothing in [comprehensive_fix] or [run] catches it; and a call
    of [_compile] can raise before its [try] (the cache directory cannot be
    created) or never come back (the polling loop of quick mode waits for the
    process without a time limit). *)

(** Whether compiling the pattern of [fix_package_not_found] raises
    [re.error], for a package name made of letters, digits, hyphens and
    parentheses: the parentheses of the name are read as groups, inside the
    group that encloses the whole pattern, and must pair up with it. *)
Fixpoint unpaired (depth : nat) (package_name : str) : bool :=
  match package_name with
  | [] => negb (depth =? 1)
  | c :: package_name' =>
      if Ascii.eqb c "(" then unpaired (S depth) package_name'
      else if Ascii.eqb c ")" then
        match depth with
        | 0 => true
        | S depth' => unpaired depth' package_name'
        end
      else unpaired depth package_name'
  end.

Definition paren_error (package_name : str) : bool := unpaired 1 package_name.

(** How a call of [_compile] ends as a call. *)
Inductive call_end :=
| CallReturns
| CallRaises
| CallHangs.

(** How [run] ends. *)
Inductive run_end :=
| Returned
| Raised
| Hung.

Section RunChecked.

Variable re : usepackage_re.
(** [re_error package_name]: the pattern for this name does not compile. *)
Variable re_error : str -> bool.
Variable max_fix_attempts : nat.
Variable self : Worker.
Variable worlds : nat -> World.
(** How the call of [_compile] in each round ends. *)
Variable calls : nat -> call_end.

(** [comprehensive_fix], with [None] when step 8 raises. *)
Definition comprehensive_fix_checked (code error_log : str) : option fixed :=
  match search_missing_package error_log with
  | Some pkg_name =>
      if re_error pkg_name then None
      else Some (comprehensive_fix re code error_log)
  | None => Some (comprehensive_fix re code error_log)
  end.

(** The loop of [run]; the trace stops where a call does not return. *)
Fixpoint attempts_checked (range : list nat) (current_code : str)
         (all_fixes : list str) : list action * run_end :=
  match range with
  | [] => ([], Returned)
  | attempt :: range' =>
      let started :=
        [Progress (lit "Compiling... (attempt " ++ of_nat (attempt + 1) ++ lit ")");
         Compile current_code] in
      match calls attempt with
      | CallRaises => (started, Raised)
      | CallHangs => (started, Hung)
      | CallReturns =>
          let '(success, pdf_path, error) :=
            _compile self (worlds attempt) current_code in
          if success then
            (started ++ [Progress (lit "Done!");
                         Finished true pdf_path [] all_fixes], Returned)
          else if negb (CompilationWorker.autofix self)
                  || (max_fix_attempts <=? attempt) then
            (started ++ [Finished false [] error all_fixes], Returned)
          else
            let analyzing :=
              Progress (lit "Analyzing errors (attempt " ++ of_nat (attempt + 1)
                            ++ lit ")...") in
            match comprehensive_fix_checked current_code error with
            | None => (started ++ [analyzing], Raised)
            | Some (fixed_code, fixes) =>
                if eqb fixed_code current_code || is_nil fixes then
                  (started ++ [analyzing; Finished false [] error all_fixes],
                   Returned)
                else
                  let '(rest, ending) :=
                    attempts_checked range' fixed_code (all_fixes ++ fixes) in
                  (started
                     ++ [analyzing; Extend fixes;
                         Progress (lit "Applied " ++ of_nat (length fixes)
                                       ++ lit " fix(es), retrying...")]
                     ++ rest,
                   ending)
            end
      end
  end.

(** [run], with the way it ends.  The pre-pass reads no log and cannot
    raise. *)
Definition run_bounded_checked : list action * run_end :=
  let '(pre, current_code, all_fixes) := pre_check re self in
  let '(trace, ending) :=
    attempts_checked (seq 0 (max_fix_attempts + 1)) current_code all_fixes in
  (pre ++ trace, ending).

End RunChecked.

Definition run_checked (re : usepackage_re) (re_error : str -> bool)
           (self : Worker) (worlds : nat -> World) (calls : nat -> call_end)
  : list action * run_end :=
  run_bounded_checked re re_error MAX_FIX_ATTEMPTS self worlds calls.

(** * Properties *)

(** ** Strings *)

Lemma eqb_refl (a : str) : eqb a a = true.
Proof.
  induction a as [|x a IH]; simpl; [reflexivity|].
  now rewrite Ascii.eqb_refl, IH.
Qed.

Lemma eqb_eq (a b : str) : eqb a b = true <-> a = b.
Proof.
  split; [|intros ->; apply eqb_refl].
  revert b; induction a as [|x a IH]; intros [|y b]; simpl; try discriminate; auto.
  intros H; apply andb_true_iff in H as [Hx Hab].
  apply Ascii.eqb_eq in Hx; subst; f_equal; auto.
Qed.

Lemma startswith_app (pat rest : str) : startswith pat (pat ++ rest) = true.
Proof.
  induction pat as [|p pat IH]; simpl; [reflexivity|].
  now rewrite Ascii.eqb_refl, IH.
Qed.

Lemma startswith_split (pat s : str) :
  startswith pat s = true -> s = pat ++ skipn (length pat) s.
Proof.
  revert s; induction pat as [|p pat IH]; intros s H; simpl in *; [reflexivity|].
  destruct s as [|c s]; [discriminate|].
  apply andb_true_iff in H as [Hc Hs]; apply Ascii.eqb_eq in Hc; subst.
  simpl; f_equal; auto.
Qed.

Lemma find_unfold (pat s : str) :
  find pat s =
  if startswith pat s then Some 0
  else match s with
       | [] => None
       | _ :: s' => option_map S (find pat s')
       end.
Proof. destruct s; reflexivity. Qed.

Lemma contains_cons (pat : str) (c : ascii) (s : str) :
  contains pat (c :: s) = startswith pat (c :: s) || contains pat s.
Proof.
  unfold contains; rewrite (find_unfold pat (c :: s)).
  destruct (startswith pat (c :: s)); [reflexivity|].
  now destruct (find pat s).
Qed.

Lemma contains_startswith (pat s : str) :
  startswith pat s = true -> contains pat s = true.
Proof. unfold contains; rewrite find_unfold; now intros ->. Qed.

Lemma contains_app (pat before after : str) :
  contains pat (before ++ pat ++ after) = true.
Proof.
  induction before as [|c before IH]; simpl.
  - apply contains_startswith, startswith_app.
  - rewrite contains_cons, IH; apply orb_true_r.
Qed.

(** ** Traces of the worker *)

Lemma compiled_app (t u : list action) :
  compiled (t ++ u) = compiled t ++ compiled u.
Proof. apply flat_map_app. Qed.

Lemma compile_calls_app (t u : list action) :
  compile_calls (t ++ u) = compile_calls t + compile_calls u.
Proof. unfold compile_calls; now rewrite compiled_app, length_app. Qed.

Lemma finished_signals_app (t u : list action) :
  finished_signals (t ++ u) = finished_signals t ++ finished_signals u.
Proof. apply filter_app. Qed.

Lemma extended_fixes_app (t u : list action) :
  extended_fixes (t ++ u) = extended_fixes t ++ extended_fixes u.
Proof. apply flat_map_app. Qed.

Section RunFacts.

Variable re : usepackage_re.
Variable max_fix_attempts : nat.
Variable self : Worker.
Variable worlds : nat -> World.

(** Every run of the loop that reaches the bound ends with one finished
    signal, emitted for the result of the last call of [_compile], carrying
    the fix list it was entered with and every list added since. *)
Lemma attempts_end (n : nat) :
  forall a current_code all_fixes,
    a + n = max_fix_attempts + 1 -> 0 < n ->
    exists pre,
      attempts re max_fix_attempts self worlds (seq a n) current_code all_fixes
      = pre ++ [finished_for
                  (_compile self (worlds (a + compile_calls pre - 1))
                            (last (compiled pre) []))
                  (all_fixes ++ extended_fixes pre)]
      /\ finished_signals pre = []
      /\ 1 <= compile_calls pre <= n.
Proof.
  induction n as [|n IH]; intros a code fixes Hsum Hpos; [lia|].
  cbn [seq attempts].
  destruct (_compile self (worlds a) code) as [[success pdf_path] error] eqn:Hc.
  destruct success.
  { exists [Progress (lit "Compiling... (attempt " ++ of_nat (a + 1) ++ lit ")");
            Compile code; Progress (lit "Done!")].
    cbn; rewrite Nat.add_sub, Hc, app_nil_r; cbn; repeat split; lia. }
  destruct (negb (autofix self) || (max_fix_attempts <=? a)) eqn:Hstop.
  { exists [Progress (lit "Compiling... (attempt " ++ of_nat (a + 1) ++ lit ")");
            Compile code].
    cbn; rewrite Nat.add_sub, Hc, app_nil_r; cbn; repeat split; lia. }
  destruct (comprehensive_fix re code error) as [fixed_code new_fixes].
  destruct (eqb fixed_code code || is_nil new_fixes).
  { exists [Progress (lit "Compiling... (attempt " ++ of_nat (a + 1) ++ lit ")");
            Compile code;
            Progress (lit "Analyzing errors (attempt " ++ of_nat (a + 1)
                          ++ lit ")...")].
    cbn; rewrite Nat.add_sub, Hc, app_nil_r; cbn; repeat split; lia. }
  apply orb_false_iff in Hstop as [_ Hlt]; apply Nat.leb_gt in Hlt.
  destruct (IH (S a) fixed_code (fixes ++ new_fixes)) as (pre & Heq & Hfin & Hcalls);
    [lia | lia |].
  exists (Progress (lit "Compiling... (attempt " ++ of_nat (a + 1) ++ lit ")")
          :: Compile code
          :: Progress (lit "Analyzing errors (attempt " ++ of_nat (a + 1)
                           ++ lit ")...")
          :: Extend new_fixes
          :: Progress (lit "Applied " ++ of_nat (length new_fixes)
                           ++ lit " fix(es), retrying...")
          :: pre).
  rewrite Heq; cbn [app]; repeat split.
  - do 5 f_equal.
    change (compile_calls (?p1 :: Compile code :: ?p2 :: ?e :: ?p3 :: pre))
      with (S (compile_calls pre)).
    change (compiled (?p1 :: Compile code :: ?p2 :: ?e :: ?p3 :: pre))
      with (code :: compiled pre).
    change (extended_fixes (?p1 :: Compile code :: ?p2 :: Extend new_fixes :: ?p3 :: pre))
      with (new_fixes ++ extended_fixes pre).
    rewrite app_assoc.
    replace (a + S (compile_calls pre) - 1) with (S a + compile_calls pre - 1) by lia.
    unfold compile_calls in Hcalls.
    destruct (compiled pre) as [|c cs] eqn:Hcs; [simpl in Hcalls; lia|].
    reflexivity.
  - exact Hfin.
  - change (compile_calls (?p1 :: Compile code :: ?p2 :: ?e :: ?p3 :: pre))
      with (S (compile_calls pre)); lia.
  - change (compile_calls (?p1 :: Compile code :: ?p2 :: ?e :: ?p3 :: pre))
      with (S (compile_calls pre)); lia.
Qed.

(** The first text compiled by the loop is the one it is entered with. *)
Lemma attempts_compiled_first (n a : nat) (current_code : str) (all_fixes : list str) :
  exists rest,
    compiled (attempts re max_fix_attempts self worlds (seq a (S n))
                       current_code all_fixes)
    = current_code :: rest.
Proof.
  cbn [seq attempts].
  destruct (_compile self (worlds a) current_code) as [[success pdf_path] error].
  destruct success; [eexists; reflexivity|].
  destruct (negb (CompilationWorker.autofix self) || (max_fix_attempts <=? a));
    [eexists; reflexivity|].
  destruct (comprehensive_fix re current_code error) as [fixed_code fixes].
  destruct (eqb fixed_code current_code || is_nil fixes); eexists; reflexivity.
Qed.

(** The whole run: the pre-pass calls [_compile] and emits the finished
    signal nowhere, and hands its fix records to the loop. *)
Lemma run_bounded_end :
  exists pre,
    run_bounded re max_fix_attempts self worlds
    = pre ++ [finished_for
                (_compile self (worlds (compile_calls pre - 1))
                          (last (compiled pre) []))
                (extended_fixes pre)]
    /\ finished_signals pre = []
    /\ 1 <= compile_calls pre <= max_fix_attempts + 1
    /\ (CompilationWorker.autofix self = true ->
        exists later,
          extended_fixes pre
          = snd (comprehensive_fix re (latex_code self) []) ++ later).
Proof.
  unfold run_bounded, pre_check.
  destruct (CompilationWorker.autofix self).
  - destruct (comprehensive_fix re (latex_code self) []) as [code fixes].
    destruct (attempts_end (max_fix_attempts + 1) 0 code fixes)
      as (pre & Heq & Hfin & Hcalls); [lia | lia |].
    rewrite Heq.
    destruct fixes as [|f fixes].
    + exists (Progress (lit "Pre-checking document structure...") :: pre).
      cbn [is_nil app]; repeat split; try tauto; try (cbn; lia).
      exists (extended_fixes pre); reflexivity.
    + set (applied := Progress (lit "Applied " ++ of_nat (length (f :: fixes))
                                    ++ lit " pre-compilation fix(es)")).
      exists (Progress (lit "Pre-checking document structure...")
              :: Extend (f :: fixes) :: applied :: pre).
      cbn [is_nil app]; repeat split; try tauto; try (cbn; lia).
      exists (extended_fixes pre); reflexivity.
  - destruct (attempts_end (max_fix_attempts + 1) 0 (latex_code self) [])
      as (pre & Heq & Hfin & Hcalls); [lia | lia |].
    rewrite Heq.
    exists pre; cbn [app]; repeat split; try tauto; try lia; discriminate.
Qed.

End RunFacts.

(** C1.  Bounded retries: when no call of [_compile] succeeds, whatever the
    diagnostics are (so also when none of them matches a diagnostic-driven
    rule), a run makes at most [max_fix_attempts + 1] calls of [_compile] and
    then emits the finished signal with success false; with the bound 5 of the
    class that is at most 6 calls. *)
Theorem run_bounded_retries
        (re : usepackage_re) (max_fix_attempts : nat) (self : Worker)
        (worlds : nat -> World) :
  (forall k code, fst (fst (_compile self (worlds k) code)) = false) ->
  (compile_calls (run_bounded re max_fix_attempts self worlds)
   <= max_fix_attempts + 1
   /\ exists pre error fixes,
       run_bounded re max_fix_attempts self worlds
       = pre ++ [Finished false [] error fixes]
       /\ finished_signals pre = [])
  /\ compile_calls (run re self worlds) <= 6.
Proof.
  intros Hfail.
  assert (Hgen : forall m,
             compile_calls (run_bounded re m self worlds) <= m + 1
             /\ exists pre error fixes,
                 run_bounded re m self worlds = pre ++ [Finished false [] error fixes]
                 /\ finished_signals pre = []).
  { intros m.
    destruct (run_bounded_end re m self worlds) as (pre & Heq & Hfin & Hcalls & _).
    rewrite Heq, compile_calls_app.
    specialize (Hfail (compile_calls pre - 1) (last (compiled pre) [])).
    destruct (_compile self (worlds (compile_calls pre - 1)) (last (compiled pre) []))
      as [[success pdf_path] error].
    simpl in Hfail; subst success; cbn [finished_for].
    split; [cbn; lia|].
    exists pre, error, (extended_fixes pre); auto. }
  split; [apply Hgen|].
  apply (Hgen MAX_FIX_ATTEMPTS).
Qed.

(** A round whose call of [_compile] fails and whose repair brings nothing
    new, should it be reached, emits the finished signal. *)
Lemma failed_round_stops
      (re : usepackage_re) (max_fix_attempts : nat) (self : Worker)
      (attempt : nat) (current_code error : str) :
  fst (comprehensive_fix re current_code error) = current_code
  \/ snd (comprehensive_fix re current_code error) = [] ->
  negb (CompilationWorker.autofix self) || (max_fix_attempts <=? attempt) = false ->
  eqb (fst (comprehensive_fix re current_code error)) current_code
  || is_nil (snd (comprehensive_fix re current_code error)) = true.
Proof.
  intros [H|H] _; rewrite H.
  - now rewrite eqb_refl.
  - apply orb_true_r.
Qed.

(** C2.  Convergence short-circuit: in any round of the loop whose call of
    [_compile] fails, if the repair engine returns the same text or no fix
    record, the finished signal with success false is emitted at once, with the
    diagnostic of that round and the fix list as it stood; the round's own
    call of [_compile] is the last one, however many rounds remain. *)
Theorem run_stops_on_convergence
        (re : usepackage_re) (max_fix_attempts : nat) (self : Worker)
        (worlds : nat -> World) (attempt : nat) (remaining : list nat)
        (current_code pdf_path error : str) (all_fixes : list str) :
  _compile self (worlds attempt) current_code = (false, pdf_path, error) ->
  fst (comprehensive_fix re current_code error) = current_code
  \/ snd (comprehensive_fix re current_code error) = [] ->
  exists pre,
    attempts re max_fix_attempts self worlds (attempt :: remaining)
             current_code all_fixes
    = pre ++ [Finished false [] error all_fixes]
    /\ finished_signals pre = []
    /\ compiled pre = [current_code].
Proof.
  intros Hc Hconv; cbn [attempts]; rewrite Hc.
  destruct (negb (CompilationWorker.autofix self) || (max_fix_attempts <=? attempt))
    eqn:Hstop.
  - (* autofix is off or the bound is reached *)
    eexists [_; _]; cbn; repeat split.
  - (* the repair engine is asked and brings nothing new *)
    pose proof (failed_round_stops re max_fix_attempts self attempt current_code
                                   error Hconv Hstop) as Hsame.
    destruct (comprehensive_fix re current_code error) as [fixed_code fixes].
    cbn [fst snd] in Hsame; rewrite Hsame.
    eexists [_; _; _]; cbn; repeat split.
Qed.

Lemma run_stops_on_convergence_witness :
  let self := Samples.worker_for Samples.plain_document true false in
  let worlds := fun _ : nat => Samples.no_pdflatex in
  _compile self (worlds 0) Samples.plain_document = (false, [], NOT_FOUND)
  /\ exists pre,
      attempts literal_usepackage_re MAX_FIX_ATTEMPTS self worlds
               (seq 0 (MAX_FIX_ATTEMPTS + 1)) Samples.plain_document []
      = pre ++ [Finished false [] NOT_FOUND []]
      /\ finished_signals pre = []
      /\ compiled pre = [Samples.plain_document].
Proof.
  intros self worlds; split; [reflexivity|].
  apply (run_stops_on_convergence literal_usepackage_re MAX_FIX_ATTEMPTS self worlds
           0 (seq 1 MAX_FIX_ATTEMPTS) Samples.plain_document [] NOT_FOUND []).
  - reflexivity.
  - left; vm_compute; reflexivity.
Defined.

(** ** Runs that do not return *)

(** When every call of [_compile] comes back and no package name read from
    a diagnostic makes the pattern fail to compile, the run with its ending is
    the run described by [attempts], and it returns. *)
Lemma attempts_checked_returns
      (re : usepackage_re) (re_error : str -> bool) (max_fix_attempts : nat)
      (self : Worker) (worlds : nat -> World) (calls : nat -> call_end) :
  (forall k, calls k = CallReturns) ->
  (forall k code pkg_name,
      search_missing_package (snd (_compile self (worlds k) code)) = Some pkg_name ->
      re_error pkg_name = false) ->
  forall range current_code all_fixes,
    attempts_checked re re_error max_fix_attempts self worlds calls
                     range current_code all_fixes
    = (attempts re max_fix_attempts self worlds range current_code all_fixes,
       Returned).
Proof.
  intros Hcalls Hnames; induction range as [|attempt range IH];
    intros code fixes; [reflexivity|].
  cbn [attempts_checked attempts]; rewrite Hcalls.
  specialize (Hnames attempt code).
  destruct (_compile self (worlds attempt) code) as [[success pdf_path] error].
  destruct success; [reflexivity|].
  destruct (negb (CompilationWorker.autofix self) || (max_fix_attempts <=? attempt));
    [reflexivity|].
  assert (Hfix : comprehensive_fix_checked re re_error code error
                 = Some (comprehensive_fix re code error)).
  { unfold comprehensive_fix_checked; cbn [snd] in Hnames.
    destruct (search_missing_package error) as [pkg_name|]; [|reflexivity].
    now rewrite (Hnames pkg_name eq_refl). }
  rewrite Hfix.
  destruct (comprehensive_fix re code error) as [fixed_code new_fixes].
  destruct (eqb fixed_code code || is_nil new_fixes); [reflexivity|].
  now rewrite IH.
Qed.

Lemma run_bounded_checked_returns
      (re : usepackage_re) (re_error : str -> bool) (max_fix_attempts : nat)
      (self : Worker) (worlds : nat -> World) (calls : nat -> call_end) :
  (forall k, calls k = CallReturns) ->
  (forall k code pkg_name,
      search_missing_package (snd (_compile self (worlds k) code)) = Some pkg_name ->
      re_error pkg_name = false) ->
  run_bounded_checked re re_error max_fix_attempts self worlds calls
  = (run_bounded re max_fix_attempts self worlds, Returned).
Proof.
  intros Hcalls Hnames; unfold run_bounded_checked, run_bounded.
  destruct (pre_check re self) as [[pre code] fixes].
  now rewrite attempts_checked_returns.
Qed.

(** C7.  A run can end without the finished signal.  The document asks for
    a package named [a(b]; the toolchain fails and its log names the missing
    file; the repair engine splices the name into its pattern, the pattern does
    not compile, and [re.error] leaves [comprehensive_fix] and [run], which
    catch nothing: the trace has one call of [_compile] and no finished signal.
    The same happens when a call of [_compile] never comes back. *)
Theorem run_can_end_without_finished_signal :
  let self := Samples.worker_for Samples.odd_package true false in
  let worlds := fun _ : nat =>
                  Samples.after_passes (Some Samples.odd_package_log) false in
  (search_missing_package
     (snd (_compile self (worlds 0) Samples.odd_package)) = Some (lit "a(b")
   /\ paren_error (lit "a(b") = true
   /\ exists trace,
       run_checked literal_usepackage_re paren_error self worlds
                   (fun _ => CallReturns)
       = (trace, Raised)
       /\ compiled trace = [Samples.odd_package]
       /\ finished_signals trace = [])
  /\ exists trace,
      run_checked literal_usepackage_re paren_error self worlds
                  (fun _ => CallHangs)
      = (trace, Hung)
      /\ compiled trace = [Samples.odd_package]
      /\ finished_signals trace = [].
Proof.
  intros self worlds; repeat split; try (vm_compute; reflexivity);
    eexists; repeat split; vm_compute; reflexivity.
Qed.

Lemma run_bounded_retries_witness :
  let self := Samples.worker_for Samples.two_end_markers true false in
  let worlds := fun _ : nat => Samples.no_pdflatex in
  (forall k code, fst (fst (_compile self (worlds k) code)) = false)
  /\ (compile_calls (run_bounded literal_usepackage_re 5 self worlds) <= 5 + 1
      /\ exists pre error fixes,
          run_bounded literal_usepackage_re 5 self worlds
          = pre ++ [Finished false [] error fixes]
          /\ finished_signals pre = [])
  /\ compile_calls (run literal_usepackage_re self worlds) <= 6.
Proof.
  intros self worlds.
  assert (H : forall k code, fst (fst (_compile self (worlds k) code)) = false)
    by (intros k code; reflexivity).
  split; [exact H|].
  exact (run_bounded_retries literal_usepackage_re 5 self worlds H).
Defined.

(** ** The facade *)

Lemma deliver_finished_signals (self : LatexCompiler.Facade) (trace : list action) :
  LatexCompiler.deliver self trace
  = LatexCompiler.deliver self (finished_signals trace).
Proof.
  revert self; induction trace as [|a trace IH]; intros self; [reflexivity|].
  destruct a; cbn; auto.
Qed.

(** C10.  A compile request whose finished signal has success false leaves
    the stored artifact path as it was; the path changes only when the signal
    has success true, and then it becomes the path carried by the signal. *)
Theorem failed_request_keeps_last_pdf_path
        (re : usepackage_re) (self : LatexCompiler.Facade)
        (latex_code output_name : str) (worlds : nat -> World)
        (success : bool) (pdf_path error : str) (fixes : list str) :
  finished_signals
    (run re (LatexCompiler.new_worker self latex_code output_name) worlds)
  = [Finished success pdf_path error fixes] ->
  LatexCompiler.get_last_pdf_path
    (LatexCompiler.request re self latex_code output_name worlds)
  = if success then Some pdf_path else LatexCompiler.get_last_pdf_path self.
Proof.
  intros Hfin; unfold LatexCompiler.request; cbn.
  rewrite deliver_finished_signals, Hfin; cbn.
  now destruct success.
Qed.

Lemma failed_request_keeps_last_pdf_path_witness :
  let self := LatexCompiler.__init__ true in
  let worlds := fun _ : nat => Samples.no_pdflatex in
  finished_signals
    (run literal_usepackage_re
         (LatexCompiler.new_worker self Samples.plain_document (lit "output"))
         worlds)
  = [Finished false [] NOT_FOUND []]
  /\ LatexCompiler.get_last_pdf_path
       (LatexCompiler.request literal_usepackage_re self Samples.plain_document
                              (lit "output") worlds)
     = LatexCompiler.get_last_pdf_path self.
Proof.
  intros self worlds.
  assert (H : finished_signals
                (run literal_usepackage_re
                     (LatexCompiler.new_worker self Samples.plain_document
                                               (lit "output")) worlds)
              = [Finished false [] NOT_FOUND []]) by (vm_compute; reflexivity).
  split; [exact H|].
  exact (failed_request_keeps_last_pdf_path literal_usepackage_re self
           Samples.plain_document (lit "output") worlds false [] NOT_FOUND [] H).
Defined.

(** ** One call of the toolchain *)

(** C9, as stated, fails: in draft mode, when the passes leave no log file,
    the artifact check decides, so two worlds that differ only in the existence
    of the artifact give different verdicts. *)
Lemma draft_mode_can_follow_the_artifact :
  let self := Samples.worker_for Samples.plain_document true true in
  draft_mode self = true
  /\ _compile self (Samples.after_passes None true) Samples.plain_document
     = (true, lit "/tmp/latex_cache_0/output.pdf", [])
  /\ _compile self (Samples.after_passes None false) Samples.plain_document
     = (false, [], lit "Unknown error - check log file").
Proof. repeat split. Qed.

(** C9, amended.  In draft mode, once the passes have ended, a log file that
    exists decides alone: the attempt fails exactly when the log has the text
    'Output written', has not the text 'No pages of output', and has a '!';
    no artifact path is returned and the existence of the artifact is not
    consulted.  Only when there is no log file does the existence of the
    artifact decide. *)
Theorem draft_mode_verdict
        (self : Worker) (w : World) (latex_code path : str) :
  draft_mode self = true ->
  write_error w = None ->
  which_pdflatex w = Some path -> path <> [] ->
  passes self w = Exited ->
  match log_file w with
  | Some log_content =>
      let failed :=
        contains (lit "Output written") log_content
        && negb (contains (lit "No pages of output") log_content)
        && contains (lit "!") log_content in
      _compile self w latex_code
      = (negb failed, [],
         if failed then _extract_error (Some log_content) [] else [])
  | None => fst (fst (_compile self w latex_code)) = pdf_exists w
  end.
Proof.
  intros Hdraft Hwrite Hwhich Hpath Hpass.
  unfold _compile, draft_check; rewrite Hwrite, Hwhich, Hpass, Hdraft.
  destruct path as [|c path]; [contradiction|].
  destruct (log_file w) as [log_content|].
  - destruct (contains (lit "No pages of output") log_content),
      (contains (lit "Output written") log_content),
      (contains (lit "!") log_content); reflexivity.
  - now destruct (pdf_exists w).
Qed.

Lemma draft_mode_verdict_witness :
  let self := Samples.worker_for Samples.plain_document true true in
  let log_content := lit "! Undefined control sequence. Output written on output.pdf" in
  _compile self (Samples.after_passes (Some log_content) true)
           Samples.plain_document
  = (false, [], _extract_error (Some log_content) []).
Proof.
  intros self log_content.
  exact (draft_mode_verdict self (Samples.after_passes (Some log_content) true)
           Samples.plain_document (lit "/usr/bin/pdflatex")
           eq_refl eq_refl eq_refl ltac:(discriminate) eq_refl).
Defined.

(** ** A missing toolchain *)

(** The fixed message of the missing toolchain matches neither
    diagnostic-driven rule, so the repair engine applies steps 1 to 7 only. *)
Lemma comprehensive_fix_not_found (re : usepackage_re) (code : str) :
  comprehensive_fix re code NOT_FOUND = structural_fixes code.
Proof. reflexivity. Qed.

Lemma _compile_not_found (self : Worker) (w : World) (latex_code : str) :
  write_error w = None -> which_pdflatex w = None ->
  _compile self w latex_code = (false, [], NOT_FOUND).
Proof. unfold _compile; now intros -> ->. Qed.

(** C6, as stated, fails: with pdflatex missing on every call, the run on
    this document calls [_compile] twice, and between the two calls the repair
    engine changes the document and records a fix. *)
Lemma missing_pdflatex_is_retried :
  let self := Samples.worker_for Samples.two_end_markers true false in
  let worlds := fun _ : nat => Samples.no_pdflatex in
  which_pdflatex Samples.no_pdflatex = None
  /\ compile_calls (run literal_usepackage_re self worlds) = 2
  /\ In (Extend [lit "Removed 1 extra closing brace(s)"])
        (run literal_usepackage_re self worlds).
Proof.
  intros self worlds; split; [reflexivity|]; split.
  - vm_compute; reflexivity.
  - vm_compute; tauto.
Qed.

(** C6, amended.  When the toolchain cannot be located, [_compile] returns
    the fixed message and the run handles it as any failed attempt: it ends
    with the finished signal carrying success false and that message, after at
    most [max_fix_attempts + 1] calls of [_compile].  With autofix off, or when
    steps 1 to 7 of the repair engine return the pre-checked document
    unchanged or without a fix record, the first call is the only one.
    Otherwise, with a bound above zero, the repaired document is compiled
    next. *)
Theorem missing_pdflatex_fails_like_any_attempt
        (re : usepackage_re) (max_fix_attempts : nat) (self : Worker)
        (worlds : nat -> World) :
  (forall k, write_error (worlds k) = None /\ which_pdflatex (worlds k) = None) ->
  let trace := run_bounded re max_fix_attempts self worlds in
  (exists pre,
      trace = pre ++ [Finished false [] NOT_FOUND (extended_fixes pre)]
      /\ finished_signals pre = []
      /\ 1 <= compile_calls pre <= max_fix_attempts + 1)
  /\ (CompilationWorker.autofix self = false ->
      compiled trace = [latex_code self]
      /\ finished_signals trace = [Finished false [] NOT_FOUND []])
  /\ (CompilationWorker.autofix self = true ->
      let checked := comprehensive_fix re (latex_code self) [] in
      fst (structural_fixes (fst checked)) = fst checked
      \/ snd (structural_fixes (fst checked)) = [] ->
      compiled trace = [fst checked]
      /\ finished_signals trace = [Finished false [] NOT_FOUND (snd checked)])
  /\ (CompilationWorker.autofix self = true ->
      0 < max_fix_attempts ->
      let checked := comprehensive_fix re (latex_code self) [] in
      fst (structural_fixes (fst checked)) <> fst checked ->
      snd (structural_fixes (fst checked)) <> [] ->
      exists later,
        compiled trace
        = fst checked :: fst (structural_fixes (fst checked)) :: later).
Proof.
  intros Hmissing trace.
  assert (Hc : forall k code, _compile self (worlds k) code = (false, [], NOT_FOUND)).
  { intros k code; destruct (Hmissing k); now apply _compile_not_found. }
  split; [|split; [|split]].
  - destruct (run_bounded_end re max_fix_attempts self worlds)
      as (pre & Heq & Hfin & Hcalls & _).
    rewrite Hc in Heq; exists pre; auto.
  - intros Hoff; subst trace; unfold run_bounded, pre_check; rewrite Hoff.
    replace (max_fix_attempts + 1) with (S max_fix_attempts) by lia.
    cbn [seq app attempts]; rewrite Hc, Hoff; cbn; auto.
  - intros Hon checked Hconv; subst trace; unfold run_bounded, pre_check.
    rewrite Hon; fold checked.
    destruct checked as [code fixes] eqn:Hchecked; simpl in Hconv.
    replace (max_fix_attempts + 1) with (S max_fix_attempts) by lia.
    cbn [seq attempts fst snd]; rewrite Hc, Hon; cbn [negb orb].
    destruct (max_fix_attempts <=? 0) eqn:Hbound.
    + destruct fixes; cbn; auto.
    + pose proof (failed_round_stops re max_fix_attempts self 0 code NOT_FOUND) as Hsame.
      rewrite comprehensive_fix_not_found, Hon in Hsame.
      specialize (Hsame Hconv Hbound).
      rewrite (comprehensive_fix_not_found re code).
      destruct (structural_fixes code) as [fixed_code new_fixes].
      cbn [fst snd] in Hsame; rewrite Hsame.
      destruct fixes; cbn; auto.
  - (* the repair changes the text: the repaired text is compiled next *)
    intros Hon Hbound checked Hchanged Hrecorded; subst trace.
    unfold run_bounded, pre_check; rewrite Hon; fold checked.
    destruct checked as [code fixes] eqn:Hchecked; cbn [fst snd] in *.
    destruct max_fix_attempts as [|m]; [lia|].
    replace (S m + 1) with (S (S m)) by lia.
    change (seq 0 (S (S m))) with (0 :: seq 1 (S m)).
    remember (seq 1 (S m)) as range eqn:Hrange.
    cbn [attempts]; rewrite Hc, Hon; cbn [negb orb Nat.leb].
    rewrite (comprehensive_fix_not_found re code).
    destruct (structural_fixes code) as [fixed_code new_fixes]; cbn [fst snd] in *.
    assert (Hne : eqb fixed_code code = false).
    { destruct (eqb fixed_code code) eqn:He; [|reflexivity].
      apply eqb_eq in He; contradiction. }
    rewrite Hne; destruct new_fixes as [|f new_fixes]; [contradiction|].
    cbn [is_nil orb].
    destruct (attempts_compiled_first re (S m) self worlds m 1 fixed_code
                (fixes ++ f :: new_fixes)) as [later Hlater].
    subst range; exists later; rewrite compiled_app.
    replace (compiled (Progress _ :: (if is_nil fixes then _ else _))) with (@nil str)
      by (now destruct fixes).
    cbn [app]; change (compiled (?p1 :: Compile code :: ?p2 :: ?e :: ?p3 :: ?t))
      with (code :: compiled t).
    now rewrite Hlater.
Qed.

Lemma missing_pdflatex_fails_like_any_attempt_witness :
  let self := Samples.worker_for Samples.plain_document true false in
  let retried := Samples.worker_for Samples.two_end_markers true false in
  let worlds := fun _ : nat => Samples.no_pdflatex in
  (forall k, write_error (worlds k) = None /\ which_pdflatex (worlds k) = None)
  /\ (compiled (run_bounded literal_usepackage_re 5 self worlds)
      = [Samples.plain_document]
      /\ finished_signals (run_bounded literal_usepackage_re 5 self worlds)
         = [Finished false [] NOT_FOUND []])
  /\ exists later,
      compiled (run_bounded literal_usepackage_re 5 retried worlds)
      = fst (comprehensive_fix literal_usepackage_re Samples.two_end_markers [])
          :: fst (structural_fixes
                    (fst (comprehensive_fix literal_usepackage_re
                                            Samples.two_end_markers [])))
          :: later.
Proof.
  intros self retried worlds.
  assert (H : forall k, write_error (worlds k) = None
                        /\ which_pdflatex (worlds k) = None)
    by (intros k; split; reflexivity).
  split; [exact H|]; split.
  - destruct (missing_pdflatex_fails_like_any_attempt literal_usepackage_re 5
                self worlds H) as (_ & _ & Hon & _).
    apply (Hon eq_refl); left; vm_compute; reflexivity.
  - destruct (missing_pdflatex_fails_like_any_attempt literal_usepackage_re 5
                retried worlds H) as (_ & _ & _ & Hretry).
    apply (Hretry eq_refl); [lia| |]; vm_compute; discriminate.
Defined.

(** ** The repair engine *)

Lemma close_unclosed_balanced (env : str) (r : fixed) :
  count (lit "\begin{" ++ env ++ lit "}") (fst r)
  = count (lit "\end{" ++ env ++ lit "}") (fst r) ->
  close_unclosed env r = r.
Proof.
  destruct r as [code fixes]; unfold close_unclosed; simpl fst; intros ->.
  now rewrite Nat.ltb_irrefl.
Qed.

(** C3.  Idempotence on well-formed input: a document with the end-document
    marker, a document class, the begin-document marker, as many closing as
    opening braces outside the listings, and as many end as begin markers of
    every heavy block kind comes back unchanged from the repair engine run
    without a diagnostic, with no fix record. *)
Theorem comprehensive_fix_well_formed (re : usepackage_re) (d : str) :
  contains END_DOCUMENT d = true ->
  contains DOCUMENTCLASS d = true ->
  contains BEGIN_DOCUMENT d = true ->
  fst (brace_totals d) = snd (brace_totals d) ->
  (forall env, In env heavy_environments ->
               count (lit "\begin{" ++ env ++ lit "}") d
               = count (lit "\end{" ++ env ++ lit "}") d) ->
  comprehensive_fix re d [] = (d, []).
Proof.
  intros Hend Hclass Hbegin Hbraces Hheavy.
  assert (Hclose : forall env fixes, In env heavy_environments ->
                                     close_unclosed env (d, fixes) = (d, fixes)).
  { intros env fixes Hin; apply close_unclosed_balanced, Hheavy, Hin. }
  change (comprehensive_fix re d []) with (structural_fixes d).
  unfold structural_fixes.
  assert (H1 : ensure_document_structure d = (d, [])).
  { unfold ensure_document_structure; rewrite Hclass; cbn [negb].
    now rewrite Hbegin. }
  assert (H2 : fix_lstlisting_issues d = (d, [])).
  { apply Hclose; simpl; tauto. }
  assert (H3 : fix_tabularx_issues d = (d, [])).
  { unfold fix_tabularx_issues; rewrite !Hclose; simpl; tauto. }
  assert (H4 : fix_description_issues d = (d, [])).
  { apply Hclose; simpl; tauto. }
  assert (H5 : fix_multicol_issues d = (d, [])).
  { apply Hclose; simpl; tauto. }
  assert (H6 : fix_brace_imbalance d = (d, [])).
  { unfold fix_brace_imbalance.
    destruct (brace_totals d) as [total_open total_close]; simpl in Hbraces; subst.
    now rewrite Nat.ltb_irrefl. }
  assert (H7 : fix_truncated_document d = (d, [])).
  { unfold fix_truncated_document; now rewrite Hend. }
  unfold apply_rule at 7; rewrite H1; cbn [app].
  unfold apply_rule at 6; rewrite H2; cbn [app].
  unfold apply_rule at 5; rewrite H3; cbn [app].
  unfold apply_rule at 4; rewrite H4; cbn [app].
  unfold apply_rule at 3; rewrite H5; cbn [app].
  unfold apply_rule at 2; rewrite H6; cbn [app].
  unfold apply_rule; rewrite H7; reflexivity.
Qed.

Lemma comprehensive_fix_well_formed_witness :
  comprehensive_fix literal_usepackage_re Samples.plain_document []
  = (Samples.plain_document, []).
Proof.
  apply (comprehensive_fix_well_formed literal_usepackage_re Samples.plain_document);
    try (vm_compute; reflexivity).
  intros env Hin; simpl in Hin.
  repeat (destruct Hin as [<- | Hin]; [vm_compute; reflexivity|]).
  contradiction.
Defined.

Lemma fix_truncated_document_ends (code : str) :
  contains END_DOCUMENT (fst (fix_truncated_document code)) = true.
Proof.
  unfold fix_truncated_document.
  destruct (contains END_DOCUMENT code) eqn:Hend; [exact Hend|]; cbn [negb].
  destruct (fold_left _ _ _) as [closed fixes]; cbn [fst].
  rewrite <- (app_nil_r END_DOCUMENT) at 2.
  change (closed ++ [nl] ++ END_DOCUMENT ++ [])
    with (closed ++ [nl] ++ END_DOCUMENT ++ []).
  rewrite app_assoc; apply contains_app.
Qed.

(** C8, as stated, fails: the diagnostic-driven rules run after the
    truncation fix, and the rule for an undefined environment named
    [document] replaces the end-document marker. *)
Lemma comprehensive_fix_can_lose_end_document :
  search_undefined_environment (lit "Environment document undefined")
  = Some (lit "document")
  /\ contains END_DOCUMENT
       (fst (comprehensive_fix literal_usepackage_re Samples.plain_document
                               (lit "Environment document undefined")))
     = false.
Proof. split; vm_compute; reflexivity. Qed.

(** C8, amended.  The truncation fix is the last of the rules that run on
    every invocation; the diagnostic-driven rules follow it when the
    diagnostic matches one.  Steps 1 to 7 always return a document with the
    end-document marker, and so does the repair engine whenever the diagnostic
    matches no diagnostic-driven rule, as in the pre-pass. *)
Theorem comprehensive_fix_ends_document
        (re : usepackage_re) (code error_log : str) :
  search_missing_package error_log = None ->
  search_undefined_environment error_log = None ->
  comprehensive_fix re code error_log = structural_fixes code
  /\ (exists before,
         fst (structural_fixes code) = fst (fix_truncated_document before))
  /\ contains END_DOCUMENT (fst (comprehensive_fix re code error_log)) = true.
Proof.
  intros Hpkg Henv.
  assert (Heq : comprehensive_fix re code error_log = structural_fixes code).
  { unfold comprehensive_fix; now rewrite Hpkg, Henv. }
  assert (Hlast : exists before,
             fst (structural_fixes code) = fst (fix_truncated_document before)).
  { unfold structural_fixes.
    destruct (apply_rule fix_brace_imbalance _) as [before fixes].
    exists before; unfold apply_rule.
    now destruct (fix_truncated_document before). }
  repeat split; auto.
  rewrite Heq; destruct Hlast as [before ->]; apply fix_truncated_document_ends.
Qed.

Lemma comprehensive_fix_ends_document_witness :
  contains END_DOCUMENT
    (fst (comprehensive_fix literal_usepackage_re (lit "\text{hi}") NOT_FOUND))
  = true.
Proof.
  apply (comprehensive_fix_ends_document literal_usepackage_re (lit "\text{hi}")
           NOT_FOUND eq_refl eq_refl).
Defined.

Lemma fold_left_push (envs open_envs : list str) :
  fold_left (fun open_envs env => open_envs ++ [env]) envs open_envs
  = open_envs ++ envs.
Proof.
  revert open_envs; induction envs as [|env envs IH]; intros open_envs; cbn.
  - now rewrite app_nil_r.
  - now rewrite IH, <- app_assoc.
Qed.

(** Without end markers every begin marker stays on the stack. *)
Lemma open_environments_no_end (code : str) :
  finditer_env (lit "\end{") 0 code = [] ->
  open_environments code = finditer_env (lit "\begin{") 0 code.
Proof.
  unfold open_environments; intros ->; cbn [fold_left].
  apply (fold_left_push _ []).
Qed.

Lemma fold_left_closers (envs : list str) :
  forall code fixes,
    fold_left
      (fun '(code, fixes) env =>
         (code ++ [nl] ++ lit "\end{" ++ env ++ lit "}",
          fixes ++ [lit "Closed unclosed environment: " ++ env]))
      envs (code, fixes)
    = (code ++ concat (map (fun env => [nl] ++ lit "\end{" ++ env ++ lit "}") envs),
       fixes ++ map (fun env => lit "Closed unclosed environment: " ++ env) envs).
Proof.
  induction envs as [|env envs IH]; intros code fixes; cbn [fold_left map concat].
  - now rewrite !app_nil_r.
  - rewrite IH; f_equal; now rewrite <- !app_assoc.
Qed.

(** What the rule appends to a document without the end marker: a closing
    marker for every environment left on its stack, the top of the stack
    first, and then the end-document marker. *)
Lemma fix_truncated_document_appends (code : str) :
  contains END_DOCUMENT code = false ->
  fst (fix_truncated_document code)
  = code
      ++ concat (map (fun env => [nl] ++ lit "\end{" ++ env ++ lit "}")
                     (rev (open_environments code)))
      ++ [nl] ++ END_DOCUMENT.
Proof.
  intros Hend; unfold fix_truncated_document; rewrite Hend; cbn [negb].
  rewrite fold_left_closers; cbn [fst]; now rewrite <- app_assoc.
Qed.

(** Nested blocks that are all open are closed from the innermost outwards. *)
Lemma fix_truncated_document_nested :
  fst (fix_truncated_document (lit "\begin{A}\begin{B}\begin{C}"))
  = lit "\begin{A}\begin{B}\begin{C}"
        ++ [nl] ++ lit "\end{C}" ++ [nl] ++ lit "\end{B}" ++ [nl] ++ lit "\end{A}"
        ++ [nl] ++ lit "\end{document}".
Proof.
  rewrite fix_truncated_document_appends by (vm_compute; reflexivity).
  rewrite open_environments_no_end by (vm_compute; reflexivity).
  vm_compute; reflexivity.
Qed.

(** C5.  On this truncated document the rule closes the list a second time:
    the begin markers are all pushed before the first end marker is read, so
    the end marker of the list does not find the list on top of the stack.
    The scan in document order leaves the document and the centred block
    open, and only those two call for a closing marker. *)
Theorem fix_truncated_document_closes_a_closed_block :
  contains END_DOCUMENT Samples.truncated_after_list = false
  /\ Specification.still_open Samples.truncated_after_list
     = [lit "document"; lit "center"]
  /\ open_environments Samples.truncated_after_list
     = [lit "document"; lit "itemize"; lit "center"]
  /\ fix_truncated_document Samples.truncated_after_list
     = (Samples.truncated_after_list
          ++ [nl] ++ lit "\end{center}" ++ [nl] ++ lit "\end{itemize}"
          ++ [nl] ++ lit "\end{document}" ++ [nl] ++ lit "\end{document}",
        [lit "Closed unclosed environment: center";
         lit "Closed unclosed environment: itemize";
         lit "Closed unclosed environment: document";
         lit "Added missing \end{document}"]).
Proof. repeat split; vm_compute; reflexivity. Qed.

(** ** Occurrences *)

Lemma contains_occurs (pat s : str) : contains pat s = true <-> occurs pat s.
Proof.
  split.
  - induction s as [|c s IH].
    + intros H; unfold contains in H; rewrite find_unfold in H.
      destruct (startswith pat []) eqn:Hs; [|discriminate].
      exists [], (skipn (length pat) []); now apply startswith_split.
    + rewrite contains_cons; intros H; apply orb_true_iff in H as [H|H].
      * exists [], (skipn (length pat) (c :: s)); now apply startswith_split.
      * destruct (IH H) as (before & after & ->).
        now exists (c :: before), after.
  - intros (before & after & ->); apply contains_app.
Qed.

Lemma not_contains_occurs (pat s : str) :
  contains pat s = false <-> ~ occurs pat s.
Proof.
  rewrite <- contains_occurs; destruct (contains pat s); split; intros H.
  - discriminate.
  - now contradiction H.
  - discriminate.
  - reflexivity.
Qed.

Lemma occurs_app_l (pat x y : str) : occurs pat x -> occurs pat (x ++ y).
Proof.
  intros (before & after & ->); exists before, (after ++ y).
  now rewrite <- !app_assoc.
Qed.

Lemma occurs_app_r (pat x y : str) : occurs pat y -> occurs pat (x ++ y).
Proof.
  intros (before & after & ->); exists (x ++ before), after.
  now rewrite <- !app_assoc.
Qed.

Lemma occurs_prefix (p1 p2 s : str) : occurs (p1 ++ p2) s -> occurs p1 s.
Proof.
  intros (before & after & ->); exists before, (p2 ++ after).
  now rewrite <- !app_assoc.
Qed.

(** An occurrence in [x ++ y] lies in [x], lies in [y], or runs over the
    seam: a proper head of the pattern ends [x] and the rest begins [y]. *)
Lemma occurs_app_cases (pat x y : str) :
  occurs pat (x ++ y) ->
  occurs pat x \/ occurs pat y
  \/ exists p1 p2 x' y',
      pat = p1 ++ p2 /\ p1 <> [] /\ p2 <> [] /\ x = x' ++ p1 /\ y = p2 ++ y'.
Proof.
  intros (before & after & Heq).
  apply app_eq_app in Heq as [l [[Hx Hp]|[Hb Hy]]].
  - apply app_eq_app in Hp as [m [[Hpat Hy]|[Hl Ha]]].
    + (* the pattern ends at or after the seam *)
      destruct l as [|c l].
      * right; left; subst; exists [], after; reflexivity.
      * destruct m as [|c' m].
        -- left; subst; rewrite app_nil_r.
           exists before, []; now rewrite app_nil_r.
        -- right; right; exists (c :: l), (c' :: m), before, after.
           subst; repeat split; auto; discriminate.
    + (* the pattern ends before the seam *)
      left; subst; exists before, m; reflexivity.
  - (* the pattern begins after the seam *)
    right; left; subst; exists l, after; reflexivity.
Qed.

Lemma occurs_cons_other (pat : str) (p c : ascii) (s : str) :
  p <> c -> occurs (p :: pat) (c :: s) -> occurs (p :: pat) s.
Proof.
  intros Hne ([|b before] & after & Heq); cbn in Heq.
  - congruence.
  - injection Heq as _ ->; now exists before, after.
Qed.

(** ** The split at the listings *)

Lemma search_lstlisting_unfold (s : str) :
  search_lstlisting s =
  match (if startswith BEGIN_LSTLISTING s
         then match find END_LSTLISTING (skipn (length BEGIN_LSTLISTING) s) with
              | Some k => Some (0, length BEGIN_LSTLISTING + k + length END_LSTLISTING)
              | None => None
              end
         else None) with
  | Some m => Some m
  | None =>
      match s with
      | [] => None
      | _ :: s' =>
          match search_lstlisting s' with
          | Some (i, j) => Some (S i, S j)
          | None => None
          end
      end
  end.
Proof. destruct s; reflexivity. Qed.

Lemma startswith_length (pat s : str) :
  startswith pat s = true -> length pat <= length s.
Proof.
  revert s; induction pat as [|p pat IH]; intros [|c s] H; simpl in *;
    try lia; try discriminate.
  apply andb_true_iff in H as [_ H]; apply IH in H; lia.
Qed.

Lemma find_bound (pat s : str) (k : nat) :
  find pat s = Some k -> k + length pat <= length s.
Proof.
  revert k; induction s as [|c s IH]; intros k; rewrite find_unfold.
  - destruct (startswith pat []) eqn:Hs; [|discriminate].
    intros [= <-]; now apply startswith_length in Hs.
  - destruct (startswith pat (c :: s)) eqn:Hs.
    + intros [= <-]; now apply startswith_length in Hs.
    + destruct (find pat s) as [k'|]; [|discriminate].
      intros [= <-]; specialize (IH k' eq_refl); simpl; lia.
Qed.

(** A match is not empty and lies inside the text. *)
Lemma search_lstlisting_bounds (s : str) (i j : nat) :
  search_lstlisting s = Some (i, j) -> i < j /\ j <= length s.
Proof.
  revert i j; induction s as [|c s IH]; intros i j; rewrite search_lstlisting_unfold.
  - cbn; discriminate.
  - destruct (startswith BEGIN_LSTLISTING (c :: s)) eqn:Hs.
    + destruct (find END_LSTLISTING (skipn (length BEGIN_LSTLISTING) (c :: s)))
        as [k|] eqn:Hf.
      * intros [= <- <-]; apply find_bound in Hf.
        apply startswith_length in Hs.
        rewrite length_skipn in Hf.
        change (length BEGIN_LSTLISTING) with 18 in *.
        change (length END_LSTLISTING) with 16 in *; lia.
      * destruct (search_lstlisting s) as [[i' j']|]; [|discriminate].
        intros [= <- <-]; destruct (IH i' j' eq_refl); simpl; lia.
    + destruct (search_lstlisting s) as [[i' j']|]; [|discriminate].
      intros [= <- <-]; destruct (IH i' j' eq_refl); simpl; lia.
Qed.

Lemma search_lstlisting_none (s : str) :
  contains BEGIN_LSTLISTING s = false -> search_lstlisting s = None.
Proof.
  induction s as [|c s IH]; [reflexivity|].
  rewrite contains_cons; intros H; apply orb_false_iff in H as [Hs Hc].
  rewrite search_lstlisting_unfold, Hs, (IH Hc); reflexivity.
Qed.

(** The parts of the split, put together again, are the text. *)
Lemma split_lstlisting_rounds_concat (rounds : nat) (s : str) :
  concat (split_lstlisting_rounds rounds s) = s.
Proof.
  revert s; induction rounds as [|r IH]; intros s; cbn [split_lstlisting_rounds].
  - cbn; apply app_nil_r.
  - destruct (search_lstlisting s) as [[i j]|] eqn:Hm; [|cbn; apply app_nil_r].
    apply search_lstlisting_bounds in Hm as [Hij _].
    cbn [concat]; rewrite IH.
    replace (skipn j s) with (skipn (j - i) (skipn i s))
      by (rewrite skipn_skipn; f_equal; lia).
    now rewrite !firstn_skipn.
Qed.

(** More rounds than characters change nothing: the split is total. *)
Lemma split_lstlisting_rounds_enough (rounds : nat) (s : str) :
  length s <= rounds -> split_lstlisting_rounds rounds s = split_lstlisting s.
Proof.
  unfold split_lstlisting.
  remember (length s) as n eqn:Hn.
  revert s rounds Hn; induction n as [n IH] using lt_wf_ind; intros s rounds Hn Hle.
  destruct rounds as [|r].
  - assert (n = 0) by lia; subst n; rewrite H; reflexivity.
  - destruct n as [|n].
    + destruct s; [reflexivity|discriminate].
    + cbn [split_lstlisting_rounds].
      destruct (search_lstlisting s) as [[i j]|] eqn:Hm; [|reflexivity].
      apply search_lstlisting_bounds in Hm as [Hij Hj].
      assert (Hlen : length (skipn j s) < S n) by (rewrite length_skipn; lia).
      do 2 f_equal.
      rewrite (IH (length (skipn j s)) Hlen (skipn j s) r eq_refl) by lia.
      rewrite (IH (length (skipn j s)) Hlen (skipn j s) n eq_refl) by lia.
      reflexivity.
Qed.

Lemma split_lstlisting_no_listing (s : str) :
  contains BEGIN_LSTLISTING s = false -> split_lstlisting s = [s].
Proof.
  intros H; unfold split_lstlisting.
  destruct (length s); cbn [split_lstlisting_rounds]; [reflexivity|].
  now rewrite (search_lstlisting_none s H).
Qed.

(** ** The brace totals *)

Lemma count_char_app (c : ascii) (x y : str) :
  count_char c (x ++ y) = count_char c x + count_char c y.
Proof. induction x as [|a x IH]; simpl; [reflexivity|rewrite IH; lia]. Qed.

Lemma count_char_times (c : ascii) (n : nat) :
  count_char c (times [c] n) = n.
Proof.
  unfold times; induction n as [|n IH]; cbn; [reflexivity|].
  rewrite Ascii.eqb_refl; cbn in IH; now rewrite IH.
Qed.

Lemma count_char_times_other (c x : ascii) (n : nat) :
  x <> c -> count_char c (times [x] n) = 0.
Proof.
  intros Hne; unfold times; induction n as [|n IH]; cbn; [reflexivity|].
  destruct (Ascii.eqb_spec x c); [contradiction|exact IH].
Qed.

Lemma brace_totals_fold (parts : list str) :
  forall i total_open total_close,
    fold_left
      (fun '(total_open, total_close) '(i, part) =>
         if i mod 2 =? 0
         then (total_open + count_char "{" part,
               total_close + count_char "}" part)
         else (total_open, total_close))
      (combine (seq i (length parts)) parts) (total_open, total_close)
    = (total_open + count_char "{" (concat (even_parts i parts)),
       total_close + count_char "}" (concat (even_parts i parts))).
Proof.
  induction parts as [|part parts IH]; intros i o c; cbn [length seq combine fold_left].
  - cbn; f_equal; lia.
  - cbn [even_parts]; destruct (i mod 2 =? 0); rewrite IH; cbn [concat].
    + rewrite !count_char_app; f_equal; lia.
    + reflexivity.
Qed.

(** The totals are the braces of the text outside the listings. *)
Lemma brace_totals_outside (code : str) :
  brace_totals code
  = (count_char "{" (outside_listings code),
     count_char "}" (outside_listings code)).
Proof.
  unfold brace_totals, enumerate, outside_listings.
  now rewrite brace_totals_fold.
Qed.

Lemma count_char_even_parts (c : ascii) (parts : list str) :
  forall i, count_char c (concat (even_parts i parts)) <= count_char c (concat parts).
Proof.
  induction parts as [|part parts IH]; intros i; cbn [even_parts concat]; [lia|].
  specialize (IH (S i)); destruct (i mod 2 =? 0); cbn [concat];
    rewrite ?count_char_app; lia.
Qed.

(** The braces outside the listings are among the braces of the text. *)
Lemma count_char_outside (c : ascii) (code : str) :
  count_char c (outside_listings code) <= count_char c code.
Proof.
  unfold outside_listings, split_lstlisting.
  rewrite <- (split_lstlisting_rounds_concat (length code) code) at 3.
  apply count_char_even_parts.
Qed.

Lemma brace_totals_no_listing (code : str) :
  contains BEGIN_LSTLISTING code = false ->
  brace_totals code = (count_char "{" code, count_char "}" code).
Proof.
  intros H; rewrite brace_totals_outside; unfold outside_listings.
  rewrite (split_lstlisting_no_listing code H); cbn; now rewrite app_nil_r.
Qed.

(** ** Removing the last closing brace *)

Lemma rfind_char_none (c : ascii) (s : str) :
  rfind_char c s = None -> count_char c s = 0.
Proof.
  induction s as [|x s IH]; cbn; [reflexivity|].
  destruct (rfind_char c s); [discriminate|].
  destruct (Ascii.eqb x c); [discriminate|auto].
Qed.

(** [rfind] points at an occurrence after which there is no other. *)
Lemma rfind_char_some (c : ascii) (s : str) (i : nat) :
  rfind_char c s = Some i ->
  s = firstn i s ++ c :: skipn (i + 1) s /\ count_char c (skipn (i + 1) s) = 0.
Proof.
  revert i; induction s as [|x s IH]; intros i; cbn [rfind_char]; [discriminate|].
  destruct (rfind_char c s) as [k|] eqn:Hr.
  - intros [= <-]; destruct (IH k eq_refl) as [Hs Hc].
    cbn [firstn Nat.add skipn app]; split; [now f_equal|exact Hc].
  - destruct (Ascii.eqb_spec x c) as [->|]; [|discriminate].
    intros [= <-]; cbn; split; [reflexivity|now apply rfind_char_none].
Qed.

(** One round of the loop cuts out the last closing brace, when there is one. *)
Lemma remove_last_brace_spec (code : str) :
  0 < count_char "}" code ->
  exists before after,
    code = before ++ "}"%char :: after
    /\ count_char "}" after = 0
    /\ remove_last_brace code = before ++ after.
Proof.
  intros Hpos; unfold remove_last_brace.
  destruct (rfind_char "}" code) as [i|] eqn:Hr.
  - destruct (rfind_char_some _ _ _ Hr) as [Hs Hc].
    exists (firstn i code), (skipn (i + 1) code); auto.
  - apply rfind_char_none in Hr; lia.
Qed.

Lemma remove_last_brace_counts (code : str) :
  0 < count_char "}" code ->
  count_char "}" (remove_last_brace code) + 1 = count_char "}" code
  /\ count_char "{" (remove_last_brace code) = count_char "{" code
  /\ length (remove_last_brace code) + 1 = length code.
Proof.
  intros Hpos.
  destruct (remove_last_brace_spec code Hpos) as (before & after & Hs & Hc & ->).
  pose proof (f_equal (count_char "}") Hs) as E1.
  pose proof (f_equal (count_char "{") Hs) as E2.
  pose proof (f_equal (@length ascii) Hs) as E3.
  rewrite !count_char_app in *; rewrite length_app in *; cbn in E1, E2, E3; lia.
Qed.

Lemma remove_last_braces_counts (n : nat) (code : str) :
  n <= count_char "}" code ->
  count_char "}" (Nat.iter n remove_last_brace code) + n = count_char "}" code
  /\ count_char "{" (Nat.iter n remove_last_brace code) = count_char "{" code
  /\ length (Nat.iter n remove_last_brace code) + n = length code.
Proof.
  induction n as [|n IH]; intros Hn; cbn [Nat.iter nat_rect]; [lia|].
  destruct IH as (H1 & H2 & H3); [lia|].
  destruct (remove_last_brace_counts (Nat.iter n remove_last_brace code))
    as (G1 & G2 & G3); [unfold Nat.iter in *; lia|].
  unfold Nat.iter in *; lia.
Qed.

(** Cutting out the last closing brace cannot complete a pattern that ends
    with a closing brace. *)
Lemma remove_last_brace_occurs (pat code : str) :
  occurs (pat ++ lit "}") (remove_last_brace code) -> occurs (pat ++ lit "}") code.
Proof.
  destruct (Nat.eq_dec (count_char "}" code) 0) as [Hz|Hnz].
  - unfold remove_last_brace.
    destruct (rfind_char "}" code) as [i|] eqn:Hr; [|auto].
    destruct (rfind_char_some _ _ _ Hr) as [Hs _].
    rewrite Hs, count_char_app in Hz; cbn in Hz; lia.
  - destruct (remove_last_brace_spec code) as (before & after & Hs & Hc & ->); [lia|].
    intros (u & v & Heq).
    rewrite <- app_assoc in Heq; cbn in Heq.
    rewrite app_assoc in Heq.
    apply app_eq_app in Heq as [l [[Hb Hv]|[Hu Ha]]].
    + destruct l as [|c l].
      * cbn in Hv; subst after; cbn in Hc; discriminate.
      * cbn in Hv; injection Hv as <- Hv; subst.
        exists u, (l ++ "}"%char :: after).
        rewrite <- !app_assoc; reflexivity.
    + subst after; rewrite count_char_app in Hc; cbn in Hc; lia.
Qed.

Lemma remove_last_braces_occurs (pat : str) (n : nat) (code : str) :
  occurs (pat ++ lit "}") (Nat.iter n remove_last_brace code) ->
  occurs (pat ++ lit "}") code.
Proof.
  induction n as [|n IH]; cbn [Nat.iter nat_rect]; [auto|].
  intros H; apply remove_last_brace_occurs in H; auto.
Qed.

(** ** Counting and replacing a marker *)

Lemma count_from_skip (pat : str) (s : str) :
  forall skip, count_from pat skip s = count_from pat 0 (skipn skip s).
Proof.
  induction s as [|c s IH]; intros [|k]; try reflexivity.
  cbn [count_from skipn]; apply IH.
Qed.

Lemma replace_from_skip (old new : str) (s : str) :
  forall skip, replace_from old new skip s = replace_from old new 0 (skipn skip s).
Proof.
  induction s as [|c s IH]; intros [|k]; try reflexivity.
  cbn [replace_from skipn]; apply IH.
Qed.

Lemma replace_from_absent (p : ascii) (pat new s : str) :
  contains (p :: pat) s = false -> replace_from (p :: pat) new 0 s = s.
Proof.
  induction s as [|c s IH]; [reflexivity|].
  rewrite contains_cons; intros H; apply orb_false_iff in H as [Hs Hc].
  cbn [replace_from]; rewrite Hs; f_equal; auto.
Qed.

Lemma count_from_zero_absent (p : ascii) (pat s : str) :
  count_from (p :: pat) 0 s = 0 -> contains (p :: pat) s = false.
Proof.
  induction s as [|c s IH]; [reflexivity|].
  cbn [count_from]; rewrite contains_cons.
  destruct (startswith (p :: pat) (c :: s)); [discriminate|]; auto.
Qed.

(** A marker counted once is replaced where it stands. *)
Lemma replace_from_once (p : ascii) (pat new s : str) :
  count_from (p :: pat) 0 s = 1 ->
  exists before after,
    s = before ++ (p :: pat) ++ after
    /\ replace_from (p :: pat) new 0 s = before ++ new ++ after.
Proof.
  induction s as [|c s IH]; [discriminate|].
  cbn [count_from replace_from].
  destruct (startswith (p :: pat) (c :: s)) eqn:Hs.
  - intros [= Hz].
    rewrite count_from_skip in Hz; apply count_from_zero_absent in Hz.
    exists [], (skipn (length (p :: pat)) (c :: s)); split.
    + now apply startswith_split.
    + cbn [app]; f_equal.
      rewrite replace_from_skip; cbn [length skipn Nat.sub].
      rewrite Nat.sub_0_r; cbn [length Nat.sub] in Hz; rewrite Nat.sub_0_r in Hz.
      now apply replace_from_absent.
  - intros H; destruct (IH H) as (before & after & Heq & Hr).
    exists (c :: before), after; split; cbn [app]; now f_equal.
Qed.

(** ** Inserted braces and the listing marker *)

(** The begin marker of a listing has its only closing brace at the end, and
    no line feed. *)
Lemma begin_lstlisting_split (p1 p2 : str) (c : ascii) :
  BEGIN_LSTLISTING = p1 ++ c :: p2 ->
  c = "}"%char \/ c = nl ->
  p1 = BEGIN_LSTLISTING_OPEN.
Proof.
  intros H Hc; unfold BEGIN_LSTLISTING, lit in H; cbn in H.
  do 18 (destruct p1 as [|a p1];
         [cbn in H; injection H as <-;
          first [reflexivity | destruct Hc as [Hc|Hc]; discriminate Hc]
         |cbn in H; injection H as <- H]).
  destruct p1; discriminate H.
Qed.

Lemma times_succ (c : ascii) (n : nat) : times [c] (S n) = c :: times [c] n.
Proof. reflexivity. Qed.

Lemma occurs_nil (p : ascii) (pat : str) : ~ occurs (p :: pat) [].
Proof. intros ([|a before] & after & H); discriminate H. Qed.

Lemma occurs_after_braces (n : nat) (z : str) :
  occurs BEGIN_LSTLISTING (times (lit "}") n ++ z) -> occurs BEGIN_LSTLISTING z.
Proof.
  induction n as [|n IH]; [auto|].
  change (lit "}") with ["}"%char] in *; rewrite times_succ; cbn [app].
  intros H; apply IH.
  refine (occurs_cons_other _ _ _ _ _ H); discriminate.
Qed.

(** Text put in at a seam, made of closing braces and then, maybe, a line
    feed and more, completes no listing marker when the marker without its
    brace does not occur before the seam. *)
Lemma occurs_begin_at_seam (x y : str) (c : ascii) (y' : str) :
  y = c :: y' -> c = "}"%char \/ c = nl ->
  ~ occurs BEGIN_LSTLISTING_OPEN x ->
  occurs BEGIN_LSTLISTING (x ++ y) -> occurs BEGIN_LSTLISTING y.
Proof.
  intros Hy Hc Hopen H.
  apply occurs_app_cases in H as [H|[H|H]].
  - contradiction Hopen.
    apply (occurs_prefix BEGIN_LSTLISTING_OPEN (lit "}")), H.
  - exact H.
  - destruct H as (p1 & p2 & x' & y'' & Hpat & _ & Hp2 & Hx & Hy2).
    destruct p2 as [|c2 p2]; [contradiction|].
    rewrite Hy in Hy2; injection Hy2 as <- _.
    apply begin_lstlisting_split in Hpat; [|exact Hc].
    contradiction Hopen; subst; exists x', []; now rewrite app_nil_r.
Qed.

Lemma appended_braces_no_listing (code : str) (n : nat) :
  contains BEGIN_LSTLISTING_OPEN code = false ->
  contains BEGIN_LSTLISTING (code ++ times (lit "}") n) = false.
Proof.
  rewrite !not_contains_occurs; intros Hopen H.
  destruct n as [|n].
  - cbn in H; rewrite app_nil_r in H.
    apply Hopen, (occurs_prefix BEGIN_LSTLISTING_OPEN (lit "}")), H.
  - change (lit "}") with ["}"%char] in H; rewrite times_succ in H.
    apply (occurs_begin_at_seam code _ "}"%char (times ["}"%char] n)) in H; auto.
    rewrite <- times_succ, <- (app_nil_r (times _ _)) in H.
    apply (occurs_after_braces (S n) []) in H.
    exact (occurs_nil _ _ H).
Qed.

Lemma inserted_braces_no_listing (before after : str) (n : nat) :
  contains BEGIN_LSTLISTING_OPEN (before ++ END_DOCUMENT ++ after) = false ->
  contains BEGIN_LSTLISTING
           (before ++ (times (lit "}") n ++ [nl] ++ END_DOCUMENT) ++ after)
  = false.
Proof.
  rewrite !not_contains_occurs; intros Hopen H.
  assert (Hx : ~ occurs BEGIN_LSTLISTING_OPEN before).
  { intros Ho; apply Hopen, occurs_app_l, Ho. }
  assert (Htail : ~ occurs BEGIN_LSTLISTING (END_DOCUMENT ++ after)).
  { intros Ho; apply Hopen, occurs_app_r.
    apply (occurs_prefix BEGIN_LSTLISTING_OPEN (lit "}")), Ho. }
  assert (Hy : occurs BEGIN_LSTLISTING
                      (times (lit "}") n ++ nl :: END_DOCUMENT ++ after)).
  { rewrite <- !app_assoc in H; cbn [app] in H.
    destruct n as [|n].
    - refine (occurs_begin_at_seam before _ nl _ _ _ Hx H); [reflexivity|auto].
    - change (lit "}") with ["}"%char] in *; rewrite times_succ in *.
      refine (occurs_begin_at_seam before _ "}"%char _ _ _ Hx H); [reflexivity|auto]. }
  apply occurs_after_braces in Hy.
  apply Htail; refine (occurs_cons_other _ _ _ _ _ Hy); discriminate.
Qed.

(** ** The brace-balance rule *)

Lemma no_open_marker_no_listing (code : str) :
  contains BEGIN_LSTLISTING_OPEN code = false ->
  contains BEGIN_LSTLISTING code = false.
Proof.
  rewrite !not_contains_occurs; intros H Ho; apply H.
  apply (occurs_prefix BEGIN_LSTLISTING_OPEN (lit "}")), Ho.
Qed.

(** C4.  The rule misses the balance it is written for, in two ways.
    With two end markers [replace] puts the missing braces in before each of
    them: one brace is missing and one is recorded as added, as the branch
    without a marker would add, yet two are put in and the totals end as
    (3, 4).  And the last closing brace of the text, which the removal takes, can
    be the one that ends a listing, a brace the count has skipped: the listing
    is no longer one, its braces are counted, and the totals end as (2, 3). *)
Theorem fix_brace_imbalance_can_leave_imbalance :
  (brace_totals Samples.two_end_markers = (3, 2)
   /\ fix_brace_imbalance Samples.two_end_markers
      = (lit "{}" ++ [nl] ++ lit "\end{document}}" ++ [nl] ++ lit "\end{document}",
         [lit "Added 1 missing closing brace(s)"])
   /\ count_char "}" (fst (fix_brace_imbalance Samples.two_end_markers))
      = count_char "}" Samples.two_end_markers + 2
   /\ brace_totals (fst (fix_brace_imbalance Samples.two_end_markers)) = (3, 4))
  /\ (brace_totals Samples.listing_at_the_end = (0, 1)
      /\ fix_brace_imbalance Samples.listing_at_the_end
         = (lit "}\begin{lstlisting}}\end{lstlisting",
            [lit "Removed 1 extra closing brace(s)"])
      /\ brace_totals (fst (fix_brace_imbalance Samples.listing_at_the_end)) = (2, 3)).
Proof. repeat split; vm_compute; reflexivity. Qed.

(** X20.  Where the rule does balance.  With O opening and C closing braces
    outside the listings: if O > C and the document has no end-document
    marker, O - C closing braces are appended; if it has exactly one, O - C
    closing braces and a line feed are put in before it; if C > O, the last
    closing brace of the whole text is cut out C - O times, which removes
    exactly C - O closing braces and nothing else; each case records one fix
    with the count.  When the text [\begin{lstlisting] does not occur in the
    document and, for O > C, at most one end-document marker does, the totals of
    the result are equal. *)
Theorem fix_brace_imbalance_repairs (d : str) :
  let total_open := fst (brace_totals d) in
  let total_close := snd (brace_totals d) in
  let fixed := fst (fix_brace_imbalance d) in
  (total_close < total_open ->
   snd (fix_brace_imbalance d)
   = [lit "Added " ++ of_nat (total_open - total_close)
          ++ lit " missing closing brace(s)"]
   /\ (contains END_DOCUMENT d = false ->
       fixed = d ++ times (lit "}") (total_open - total_close))
   /\ (count END_DOCUMENT d = 1 ->
       exists before after,
         d = before ++ END_DOCUMENT ++ after
         /\ fixed = before
                      ++ (times (lit "}") (total_open - total_close)
                                ++ [nl] ++ END_DOCUMENT)
                      ++ after))
  /\ (total_open < total_close ->
      snd (fix_brace_imbalance d)
      = [lit "Removed " ++ of_nat (total_close - total_open)
             ++ lit " extra closing brace(s)"]
      /\ fixed = Nat.iter (total_close - total_open) remove_last_brace d
      /\ count_char "}" fixed + (total_close - total_open) = count_char "}" d
      /\ count_char "{" fixed = count_char "{" d
      /\ length fixed + (total_close - total_open) = length d)
  /\ (contains BEGIN_LSTLISTING_OPEN d = false ->
      (total_close < total_open -> count END_DOCUMENT d <= 1) ->
      fst (brace_totals fixed) = snd (brace_totals fixed)).
Proof.
  intros total_open total_close fixed.
  assert (Hadd : total_close < total_open ->
                 snd (fix_brace_imbalance d)
                 = [lit "Added " ++ of_nat (total_open - total_close)
                        ++ lit " missing closing brace(s)"]
                 /\ (contains END_DOCUMENT d = false ->
                     fixed = d ++ times (lit "}") (total_open - total_close))
                 /\ (count END_DOCUMENT d = 1 ->
                     exists before after,
                       d = before ++ END_DOCUMENT ++ after
                       /\ fixed = before
                                    ++ (times (lit "}") (total_open - total_close)
                                              ++ [nl] ++ END_DOCUMENT)
                                    ++ after)).
  { intros Hlt; subst fixed total_open total_close; unfold fix_brace_imbalance.
    destruct (brace_totals d) as [o c]; cbn [fst snd] in *.
    apply Nat.ltb_lt in Hlt; rewrite Hlt; cbn [fst snd].
    split; [reflexivity|]; split.
    - now intros ->.
    - intros Hone.
      change (count END_DOCUMENT d) with (count_from END_DOCUMENT 0 d) in Hone.
      destruct (replace_from_once _ _ (times (lit "}") (o - c) ++ [nl] ++ END_DOCUMENT)
                                  d Hone) as (before & after & Hd & Hr).
      exists before, after; split; [exact Hd|].
      assert (Hin : contains END_DOCUMENT d = true).
      { rewrite Hd; apply contains_app. }
      rewrite Hin; exact Hr. }
  assert (Hremove : total_open < total_close ->
                    snd (fix_brace_imbalance d)
                    = [lit "Removed " ++ of_nat (total_close - total_open)
                           ++ lit " extra closing brace(s)"]
                    /\ fixed = Nat.iter (total_close - total_open) remove_last_brace d
                    /\ count_char "}" fixed + (total_close - total_open)
                       = count_char "}" d
                    /\ count_char "{" fixed = count_char "{" d
                    /\ length fixed + (total_close - total_open) = length d).
  { intros Hlt.
    assert (Hle : total_close - total_open <= count_char "}" d).
    { subst total_close; rewrite brace_totals_outside; cbn [snd].
      pose proof (count_char_outside "}" d); lia. }
    assert (Hfix : fix_brace_imbalance d
                   = (Nat.iter (total_close - total_open) remove_last_brace d,
                      [lit "Removed " ++ of_nat (total_close - total_open)
                           ++ lit " extra closing brace(s)"])).
    { subst total_open total_close; unfold fix_brace_imbalance.
      destruct (brace_totals d) as [o c]; cbn [fst snd] in *.
      assert (Hge : (c <? o) = false) by (apply Nat.ltb_ge; lia).
      apply Nat.ltb_lt in Hlt; now rewrite Hge, Hlt. }
    subst fixed; rewrite Hfix; cbn [fst snd].
    split; [reflexivity|]; split; [reflexivity|].
    now apply remove_last_braces_counts. }
  split; [exact Hadd|]; split; [exact Hremove|].
  intros Hopen Hmarkers.
  pose proof (no_open_marker_no_listing d Hopen) as Hnone.
  pose proof (brace_totals_no_listing d Hnone) as Htotals.
  assert (Ho : total_open = count_char "{" d) by (subst total_open; now rewrite Htotals).
  assert (Hc : total_close = count_char "}" d) by (subst total_close; now rewrite Htotals).
  destruct (Nat.lt_trichotomy total_open total_close) as [Hlt|[Heq|Hgt]].
  - (* braces are removed *)
    destruct (Hremove Hlt) as (_ & Hfixed & Hclose & Hopen' & _).
    rewrite brace_totals_no_listing; [cbn [fst snd]; lia|].
    rewrite Hfixed; apply not_contains_occurs; intros Hocc.
    apply (remove_last_braces_occurs BEGIN_LSTLISTING_OPEN) in Hocc.
    now apply not_contains_occurs in Hnone.
  - (* nothing to do *)
    assert (Hsame : fixed = d).
    { subst fixed; unfold fix_brace_imbalance; rewrite Htotals; cbn beta iota.
      now rewrite <- Ho, <- Hc, Heq, Nat.ltb_irrefl. }
    rewrite Hsame; exact Heq.
  - (* braces are added *)
    destruct (Hadd Hgt) as (_ & Hnomarker & Honemarker).
    specialize (Hmarkers Hgt).
    assert (Hcases : count END_DOCUMENT d = 0 \/ count END_DOCUMENT d = 1) by lia.
    destruct Hcases as [Hzero|Hone].
    + change (count END_DOCUMENT d) with (count_from END_DOCUMENT 0 d) in Hzero.
      apply count_from_zero_absent in Hzero.
      rewrite (Hnomarker Hzero).
      rewrite brace_totals_no_listing by now apply appended_braces_no_listing.
      cbn [fst snd]; rewrite !count_char_app.
      change (lit "}") with ["}"%char].
      rewrite count_char_times, count_char_times_other by discriminate; lia.
    + destruct (Honemarker Hone) as (before & after & Hd & Hfixed).
      rewrite Hfixed.
      rewrite brace_totals_no_listing
        by (apply inserted_braces_no_listing; now rewrite <- Hd).
      cbn [fst snd]; rewrite !count_char_app.
      change (lit "}") with ["}"%char].
      rewrite count_char_times, count_char_times_other by discriminate.
      rewrite Hd, !count_char_app in Ho, Hc.
      cbn in Ho, Hc |- *; lia.
Qed.

Lemma fix_brace_imbalance_repairs_witness :
  fix_brace_imbalance Samples.three_opens_one_close
  = (lit "{{{x}" ++ [nl] ++ lit "}}" ++ [nl] ++ lit "\end{document}",
     [lit "Added 2 missing closing brace(s)"])
  /\ fst (brace_totals (fst (fix_brace_imbalance Samples.three_opens_one_close)))
     = snd (brace_totals (fst (fix_brace_imbalance Samples.three_opens_one_close))).
Proof.
  split; [vm_compute; reflexivity|].
  destruct (fix_brace_imbalance_repairs Samples.three_opens_one_close)
    as (_ & _ & Hbalanced).
  apply Hbalanced; [vm_compute; reflexivity|].
  intros _; vm_compute; lia.
Defined.

(** ** The scenarios of the specification, run on the embedding *)

(** A bare fragment gets a class declaration, a begin marker after the
    (here one-line) preamble and the end marker. *)
Lemma scenario_bare_fragment :
  fst (comprehensive_fix literal_usepackage_re (lit "\text{hi}") [])
  = lit "\documentclass[12pt]{article}" ++ [nl] ++ lit "\begin{document}" ++ [nl]
        ++ lit "\text{hi}" ++ [nl] ++ lit "\end{document}" ++ [nl]
        ++ lit "\end{document}".
Proof. vm_compute; reflexivity. Qed.

(** Two begin markers and one end marker of a heavy kind: one end marker is
    appended and one fix mentions the count. *)
Lemma scenario_unclosed_description :
  fix_description_issues
    (lit "\begin{description}\begin{description}\end{description}")
  = (lit "\begin{description}\begin{description}\end{description}"
         ++ [nl] ++ lit "\end{description}",
     [lit "Closed 1 unclosed description environment(s)"]).
Proof. vm_compute; reflexivity. Qed.

(** A missing package named by the diagnostic: its import is commented out
    and the other import stays. *)
Lemma scenario_missing_package :
  fix_package_not_found literal_usepackage_re
    (lit "\usepackage{bar}" ++ [nl] ++ lit "\usepackage[x]{foo}") (lit "foo")
  = (lit "\usepackage{bar}" ++ [nl]
         ++ lit "% \usepackage[x]{foo}  % Package not available",
     [lit "Commented out unavailable package: foo"]).
Proof. vm_compute; reflexivity. Qed.

(** A document whose repair changes nothing is compiled once. *)
Lemma scenario_no_progress :
  compiled (run literal_usepackage_re
                (Samples.worker_for Samples.plain_document true false)
                (fun _ => Samples.after_passes (Some (lit "! Emergency stop.")) false))
  = [Samples.plain_document].
Proof. vm_compute; reflexivity. Qed.

(** * Further properties of the module *)

(** ** The rule for special characters *)

Lemma fix_special_characters_fold (parts : list str) :
  forall i fixed_parts fixes,
    fold_left
      (fun '(fixed_parts, fixes) '(i, part) =>
         let fixes :=
           if i mod 2 =? 0 then
             let original := part in
             if negb (eqb original part)
             then fixes ++ [lit "Fixed unescaped special characters"]
             else fixes
           else fixes in
         (fixed_parts ++ [part], fixes))
      (combine (seq i (length parts)) parts) (fixed_parts, fixes)
    = (fixed_parts ++ parts, fixes).
Proof.
  induction parts as [|part parts IH]; intros i acc fixes;
    cbn [length seq combine fold_left].
  - now rewrite app_nil_r.
  - rewrite eqb_refl; cbn [negb].
    destruct (i mod 2 =? 0); rewrite IH, <- app_assoc; reflexivity.
Qed.

(** X1.  The rule for special characters never changes the document and
    never records a fix: the parts of the split, joined again, are the text,
    listings included. *)
Theorem fix_special_characters_unchanged (code : str) :
  fix_special_characters code = (code, []).
Proof.
  unfold fix_special_characters, enumerate.
  rewrite fix_special_characters_fold; cbn [app].
  unfold split_lstlisting; now rewrite split_lstlisting_rounds_concat.
Qed.

(** ** The patterns read from the log *)

Lemma lazy_dots_sound (suffix s g : str) :
  lazy_dots suffix s = Some g ->
  ~ In nl g /\ exists rest, s = g ++ suffix ++ rest.
Proof.
  revert g; induction s as [|c s IH]; intros g; cbn [lazy_dots].
  - destruct (startswith suffix []) eqn:Hs; [|discriminate].
    intros [= <-]; split; [auto|].
    exists (skipn (length suffix) []); now apply startswith_split.
  - destruct (startswith suffix (c :: s)) eqn:Hs.
    + intros [= <-]; split; [auto|].
      exists (skipn (length suffix) (c :: s)); now apply startswith_split.
    + destruct (Ascii.eqb_spec c nl) as [|Hc]; [discriminate|].
      destruct (lazy_dots suffix s) as [w|]; [|discriminate].
      intros [= <-]; destruct (IH w eq_refl) as (Hnl & rest & ->).
      split; [|now exists rest].
      intros [Hin|Hin]; [now apply Hc|now apply Hnl].
Qed.

Lemma lazy_dots_complete (suffix g rest : str) :
  ~ In nl g -> lazy_dots suffix (g ++ suffix ++ rest) <> None.
Proof.
  induction g as [|c g IH]; intros Hnl.
  - cbn [app]; destruct (suffix ++ rest) eqn:Hs; cbn [lazy_dots];
      rewrite <- Hs, startswith_app; discriminate.
  - cbn [app lazy_dots].
    destruct (startswith suffix (c :: g ++ suffix ++ rest)); [discriminate|].
    destruct (Ascii.eqb_spec c nl) as [->|_]; [contradiction Hnl; now left|].
    destruct (lazy_dots suffix (g ++ suffix ++ rest)); [discriminate|].
    exfalso; apply IH; [intros Hin; apply Hnl; now right|reflexivity].
Qed.

Lemma search_group_unfold (prefix suffix s : str) :
  search_group prefix suffix s =
  match (if startswith prefix s
         then lazy_dots1 suffix (skipn (length prefix) s)
         else None) with
  | Some g => Some g
  | None =>
      match s with
      | [] => None
      | _ :: s' => search_group prefix suffix s'
      end
  end.
Proof. destruct s; reflexivity. Qed.

(** What a successful search returns: a group that is not empty, has no line
    feed, and stands in the text between the two fixed parts of the pattern. *)
Lemma search_group_sound (prefix suffix s g : str) :
  search_group prefix suffix s = Some g ->
  g <> [] /\ ~ In nl g /\ occurs (prefix ++ g ++ suffix) s.
Proof.
  induction s as [|c s IH]; rewrite search_group_unfold.
  - rewrite skipn_nil; cbn.
    destruct (startswith prefix []); discriminate.
  - destruct (startswith prefix (c :: s)) eqn:Hs.
    + destruct (lazy_dots1 suffix (skipn (length prefix) (c :: s))) as [w|] eqn:Hl.
      * intros [= <-]; apply startswith_split in Hs.
        unfold lazy_dots1 in Hl.
        destruct (skipn (length prefix) (c :: s)) as [|x t] eqn:Ht; [discriminate|].
        destruct (Ascii.eqb_spec x nl) as [|Hx]; [discriminate|].
        destruct (lazy_dots suffix t) as [w'|] eqn:Hw; [|discriminate].
        injection Hl as <-.
        destruct (lazy_dots_sound _ _ _ Hw) as (Hnl & rest & ->).
        split; [discriminate|]; split.
        -- intros [Hin|Hin]; [now apply Hx|now apply Hnl].
        -- exists [], rest; rewrite Hs at 1; cbn [app].
           rewrite <- !app_assoc; cbn [app]; now rewrite <- !app_assoc.
      * intros H; destruct (IH H) as (Hg & Hnl & Hocc).
        repeat split; auto; now apply (occurs_app_r _ [c]).
    + intros H; destruct (IH H) as (Hg & Hnl & Hocc).
      repeat split; auto; now apply (occurs_app_r _ [c]).
Qed.

(** A search fails only when the text has no such occurrence. *)
Lemma search_group_complete (prefix suffix s g : str) :
  g <> [] -> ~ In nl g -> occurs (prefix ++ g ++ suffix) s ->
  search_group prefix suffix s <> None.
Proof.
  intros Hg Hnl (before & after & ->).
  induction before as [|c before IH]; rewrite search_group_unfold.
  - cbn [app]; rewrite <- !app_assoc, startswith_app.
    replace (skipn (length prefix) (prefix ++ g ++ suffix ++ after))
      with (g ++ suffix ++ after)
      by (rewrite skipn_app, skipn_all, Nat.sub_diag; reflexivity).
    destruct g as [|x g]; [contradiction|].
    cbn [app lazy_dots1].
    destruct (Ascii.eqb_spec x nl) as [->|_]; [contradiction Hnl; now left|].
    destruct (lazy_dots suffix (g ++ suffix ++ after)) eqn:Hl; [discriminate|].
    exfalso; apply (lazy_dots_complete suffix g after);
      [intros Hin; apply Hnl; now right|exact Hl].
  - cbn [app].
    destruct (if startswith prefix (c :: before ++ (prefix ++ g ++ suffix) ++ after)
              then _ else _); [discriminate|exact IH].
Qed.

(** X2.  The package rule reads its name from the log soundly and never
    misses: a name that is found is not empty, has no line feed, and stands in
    the log as [File `name.sty' not found]; and when the log has such a text
    on one line, a name is found. *)
Theorem search_missing_package_spec (error_log : str) :
  (forall name,
      search_missing_package error_log = Some name ->
      name <> [] /\ ~ In nl name
      /\ occurs (lit "File `" ++ name ++ lit ".sty' not found") error_log)
  /\ (forall name,
         name <> [] -> ~ In nl name ->
         occurs (lit "File `" ++ name ++ lit ".sty' not found") error_log ->
         search_missing_package error_log <> None).
Proof.
  split; intros name.
  - apply search_group_sound.
  - apply search_group_complete.
Qed.

(** X3.  The same for the rule of the undefined environment and the text
    [Environment name undefined]. *)
Theorem search_undefined_environment_spec (error_log : str) :
  (forall name,
      search_undefined_environment error_log = Some name ->
      name <> [] /\ ~ In nl name
      /\ occurs (lit "Environment " ++ name ++ lit " undefined") error_log)
  /\ (forall name,
         name <> [] -> ~ In nl name ->
         occurs (lit "Environment " ++ name ++ lit " undefined") error_log ->
         search_undefined_environment error_log <> None).
Proof.
  split; intros name.
  - apply search_group_sound.
  - apply search_group_complete.
Qed.

Lemma search_missing_package_spec_witness :
  search_missing_package (lit "! LaTeX Error: File `foo.sty' not found.")
  = Some (lit "foo")
  /\ occurs (lit "File `" ++ lit "foo" ++ lit ".sty' not found")
            (lit "! LaTeX Error: File `foo.sty' not found.").
Proof.
  split; [reflexivity|].
  apply (proj1 (search_missing_package_spec
                  (lit "! LaTeX Error: File `foo.sty' not found.")) (lit "foo")).
  reflexivity.
Defined.

Lemma search_undefined_environment_spec_witness :
  search_undefined_environment (lit "! LaTeX Error: Environment foo undefined.")
  = Some (lit "foo")
  /\ occurs (lit "Environment " ++ lit "foo" ++ lit " undefined")
            (lit "! LaTeX Error: Environment foo undefined.").
Proof.
  split; [reflexivity|].
  apply (proj1 (search_undefined_environment_spec
                  (lit "! LaTeX Error: Environment foo undefined.")) (lit "foo")).
  reflexivity.
Defined.

(** ** The error text of a failed attempt *)

Lemma collect_error_lines_length (lines : list str) :
  forall error_lines,
    length error_lines < 15 ->
    length (collect_error_lines lines error_lines) <= 15.
Proof.
  induction lines as [|line lines IH]; intros acc Hacc; cbn [collect_error_lines].
  - lia.
  - destruct (startswith (lit "!") line || contains (lit "Error") line
              || contains (lit "error") (lower line)); [|auto].
    destruct (15 <=? length (acc ++ [strip line])) eqn:Hfull.
    + rewrite length_app in *; cbn in *; lia.
    + apply IH; now apply Nat.leb_gt in Hfull.
Qed.

Lemma collect_error_lines_origin (lines : list str) :
  forall error_lines e,
    In e (collect_error_lines lines error_lines) ->
    In e error_lines
    \/ exists line,
        In line lines /\ e = strip line
        /\ startswith (lit "!") line || contains (lit "Error") line
           || contains (lit "error") (lower line) = true.
Proof.
  induction lines as [|line lines IH]; intros acc e; cbn [collect_error_lines].
  - auto.
  - destruct (startswith (lit "!") line || contains (lit "Error") line
              || contains (lit "error") (lower line)) eqn:Hflag.
    + assert (Hnew : In e (acc ++ [strip line]) ->
                     In e acc
                     \/ exists l, In l (line :: lines) /\ e = strip l
                                  /\ startswith (lit "!") l || contains (lit "Error") l
                                     || contains (lit "error") (lower l) = true).
      { intros Hin; apply in_app_or in Hin as [Hin|[<-|[]]]; [now left|].
        right; exists line; repeat split; [now left|exact Hflag]. }
      destruct (15 <=? length (acc ++ [strip line])); [exact Hnew|].
      intros Hin; apply IH in Hin as [Hin|(l & Hl & He & Hf)]; [auto|].
      right; exists l; repeat split; auto; now right.
    + intros Hin; apply IH in Hin as [Hin|(l & Hl & He & Hf)]; [auto|].
      right; exists l; repeat split; auto; now right.
Qed.

(** X4.  At most fifteen lines of the log are collected, and each of them
    is a line of the log, stripped, that starts with '!' or has the word
    error in it, in any case. *)
Theorem collect_error_lines_spec (lines : list str) :
  length (collect_error_lines lines []) <= 15
  /\ forall e,
      In e (collect_error_lines lines []) ->
      exists line,
        In line lines /\ e = strip line
        /\ startswith (lit "!") line || contains (lit "Error") line
           || contains (lit "error") (lower line) = true.
Proof.
  split.
  - apply collect_error_lines_length; cbn; lia.
  - intros e Hin; apply collect_error_lines_origin in Hin as [[]|H]; exact H.
Qed.

Lemma last_chars_length (n : nat) (s : str) : length (last_chars n s) <= n.
Proof. unfold last_chars; rewrite length_skipn; lia. Qed.

Lemma last_chars_nonempty (n : nat) (s : str) :
  0 < n -> s <> [] -> last_chars n s <> [].
Proof.
  intros Hn Hs H; apply (f_equal (@length ascii)) in H.
  unfold last_chars in H; rewrite length_skipn in H; cbn [length] in H.
  destruct s; [contradiction|cbn [length] in H; lia].
Qed.

Lemma _extract_error_nonempty (log_file : option str) (stdout : str) :
  _extract_error log_file stdout <> [].
Proof.
  unfold _extract_error; destruct log_file as [content|]; [|discriminate].
  destruct (collect_error_lines (split_lines content) []) as [|e es].
  - destruct content as [|c content]; [discriminate|].
    now apply last_chars_nonempty; [lia|].
  - intros H; apply (f_equal (@length ascii)) in H.
    rewrite !length_app in H; cbn in H; lia.
Qed.

(** X5.  The error text of a failed attempt is never empty, with or without
    a log file; and when no line of the log is collected the text is at most
    3000 characters long. *)
Theorem _extract_error_text (log_file : option str) (stdout : str) :
  _extract_error log_file stdout <> []
  /\ (match log_file with
      | Some content => collect_error_lines (split_lines content) [] = []
      | None => True
      end ->
      length (_extract_error log_file stdout) <= 3000).
Proof.
  split; [apply _extract_error_nonempty|].
  unfold _extract_error; destruct log_file as [content|]; [|intros _; cbn; lia].
  intros ->; destruct content as [|c content]; [cbn; lia|].
  apply last_chars_length.
Qed.

(** X6.  Every result of [_compile] is well formed: a success carries no
    error text, a failure carries no path and an error text that is not empty,
    and a path is returned only when the artifact exists, the path of the
    artifact in the cache directory. *)
Theorem _compile_outcome (self : Worker) (w : World) (latex_code : str) :
  let '(success, pdf_path, error) := _compile self w latex_code in
  (success = true -> error = [])
  /\ (success = false -> pdf_path = [] /\ error <> [])
  /\ (pdf_path <> [] ->
      success = true /\ pdf_exists w = true
      /\ pdf_path = path_join (temp_dir w) (output_name self ++ lit ".pdf")).
Proof.
  pose proof (_extract_error_nonempty (log_file w) []) as Herr.
  unfold _compile, draft_check.
  destruct (write_error w); [repeat split; try discriminate; try contradiction|].
  destruct (which_pdflatex w) as [[|c path]|];
    try (repeat split; try discriminate; try contradiction).
  destruct (passes self w);
    try (repeat split; try discriminate; try contradiction).
  destruct (draft_mode self), (log_file w) as [log_content|];
    repeat match goal with
           | |- context [if ?b then _ else _] => destruct b eqn:?
           end;
    repeat split; try discriminate; try contradiction; auto.
Qed.

(** ** More on the retry loop *)

Section RetryFacts.

Variable re : usepackage_re.
Variable max_fix_attempts : nat.
Variable self : Worker.
Variable worlds : nat -> World.

(** Each text compiled after the first is the repair of the one before,
    made with the diagnostic of the failed call before, and differs from it. *)
Lemma attempts_chain (n : nat) :
  forall a current_code all_fixes k,
    let texts :=
      compiled (attempts re max_fix_attempts self worlds (seq a n)
                         current_code all_fixes) in
    S k < length texts ->
    let r := _compile self (worlds (a + k)) (nth k texts []) in
    fst (fst r) = false
    /\ nth (S k) texts [] = fst (comprehensive_fix re (nth k texts []) (snd r))
    /\ nth (S k) texts [] <> nth k texts [].
Proof.
  induction n as [|n IH]; intros a code fixes k; cbn zeta; [cbn; lia|].
  cbn [seq attempts].
  destruct (_compile self (worlds a) code) as [[success pdf_path] error] eqn:Hc.
  destruct success; [cbn; lia|].
  destruct (negb (CompilationWorker.autofix self) || (max_fix_attempts <=? a));
    [cbn; lia|].
  destruct (comprehensive_fix re code error) as [fixed_code new_fixes] eqn:Hfix.
  destruct (eqb fixed_code code || is_nil new_fixes) eqn:Hsame; [cbn; lia|].
  change (compiled (?p1 :: Compile code :: ?p2 :: Extend new_fixes :: ?p3 :: ?t))
    with (code :: compiled t).
  destruct n as [|n]; [cbn; lia|].
  destruct (attempts_compiled_first re max_fix_attempts self worlds
              n (S a) fixed_code (fixes ++ new_fixes))
    as [rest Hrest].
  destruct k as [|k].
  - intros _; rewrite Hrest; cbn [nth]; rewrite Nat.add_0_r, Hc; cbn [fst snd].
    rewrite Hfix; cbn [fst]; repeat split.
    apply orb_false_iff in Hsame as [Hne _].
    intros Heq; apply eqb_eq in Heq; congruence.
  - cbn [length nth]; intros Hk.
    replace (a + S k) with (S a + k) by lia.
    apply (IH (S a) fixed_code (fixes ++ new_fixes) k); lia.
Qed.

End RetryFacts.

(** X7.  With autofix off the document is compiled once, as it was given,
    no fix is ever recorded, and the finished signal reports the result of that
    one call with an empty fix list. *)
Theorem run_without_autofix
        (re : usepackage_re) (self : Worker) (worlds : nat -> World) :
  CompilationWorker.autofix self = false ->
  compiled (run re self worlds) = [latex_code self]
  /\ extended_fixes (run re self worlds) = []
  /\ finished_signals (run re self worlds)
     = [finished_for (_compile self (worlds 0) (latex_code self)) []].
Proof.
  intros Hoff; unfold run, run_bounded, pre_check; rewrite Hoff.
  cbn [app MAX_FIX_ATTEMPTS Nat.add seq attempts]; rewrite Hoff; cbn [negb orb].
  destruct (_compile self (worlds 0) (latex_code self)) as [[[] pdf_path] error];
    repeat split.
Qed.

Lemma run_without_autofix_witness :
  let self := Samples.worker_for Samples.two_end_markers false false in
  let worlds := fun _ : nat => Samples.after_passes None true in
  compiled (run literal_usepackage_re self worlds) = [Samples.two_end_markers]
  /\ extended_fixes (run literal_usepackage_re self worlds) = []
  /\ finished_signals (run literal_usepackage_re self worlds)
     = [Finished true (lit "/tmp/latex_cache_0/output.pdf") [] []].
Proof.
  intros self worlds.
  exact (run_without_autofix literal_usepackage_re self worlds eq_refl).
Defined.

(** X8.  The texts handed to [_compile] in a run form a chain: the first is
    the pre-checked document (the document itself with autofix off), and each
    later one is the repair of the one before it, made with the diagnostic of
    the failed call on that one, and differs from it.  The document is never
    reset to the original. *)
Theorem run_compiles_repaired_texts
        (re : usepackage_re) (max_fix_attempts : nat) (self : Worker)
        (worlds : nat -> World) (k : nat) :
  let texts := compiled (run_bounded re max_fix_attempts self worlds) in
  nth 0 texts []
  = (if CompilationWorker.autofix self
     then fst (comprehensive_fix re (latex_code self) [])
     else latex_code self)
  /\ (S k < length texts ->
      let r := _compile self (worlds k) (nth k texts []) in
      fst (fst r) = false
      /\ nth (S k) texts [] = fst (comprehensive_fix re (nth k texts []) (snd r))
      /\ nth (S k) texts [] <> nth k texts []).
Proof.
  cbn zeta; unfold run_bounded, pre_check.
  assert (Hpre : forall code fixes (pre : list action),
             compiled pre = [] ->
             compiled (pre ++ attempts re max_fix_attempts self worlds
                                       (seq 0 (max_fix_attempts + 1)) code fixes)
             = compiled (attempts re max_fix_attempts self worlds
                                  (seq 0 (max_fix_attempts + 1)) code fixes)).
  { intros code fixes pre Hnone; now rewrite compiled_app, Hnone. }
  assert (Hchain : forall code fixes,
             let texts := compiled (attempts re max_fix_attempts self worlds
                                             (seq 0 (max_fix_attempts + 1)) code fixes) in
             nth 0 texts [] = code
             /\ (S k < length texts ->
                 let r := _compile self (worlds k) (nth k texts []) in
                 fst (fst r) = false
                 /\ nth (S k) texts []
                    = fst (comprehensive_fix re (nth k texts []) (snd r))
                 /\ nth (S k) texts [] <> nth k texts [])).
  { intros code fixes; cbn zeta; split.
    - replace (max_fix_attempts + 1) with (S max_fix_attempts) by lia.
      destruct (attempts_compiled_first re max_fix_attempts self worlds
                  max_fix_attempts 0 code fixes) as [rest ->]; reflexivity.
    - apply (attempts_chain re max_fix_attempts self worlds
               (max_fix_attempts + 1) 0 code fixes k). }
  destruct (CompilationWorker.autofix self).
  - destruct (comprehensive_fix re (latex_code self) []) as [code fixes].
    rewrite Hpre by (now destruct fixes); cbn [fst]; apply Hchain.
  - rewrite Hpre by reflexivity; apply Hchain.
Qed.

Lemma run_compiles_repaired_texts_witness :
  let self := Samples.worker_for Samples.two_end_markers true false in
  let worlds := fun _ : nat => Samples.no_pdflatex in
  let texts := compiled (run_bounded literal_usepackage_re 5 self worlds) in
  length texts = 2
  /\ nth 1 texts []
     = fst (comprehensive_fix literal_usepackage_re (nth 0 texts []) NOT_FOUND)
  /\ nth 1 texts [] <> nth 0 texts [].
Proof.
  intros self worlds texts.
  assert (Hlen : length texts = 2) by (vm_compute; reflexivity).
  split; [exact Hlen|].
  destruct (run_compiles_repaired_texts literal_usepackage_re 5 self worlds 0)
    as [_ Hchain].
  fold texts in Hchain; rewrite Hlen in Hchain.
  destruct (Hchain ltac:(lia)) as (_ & Hnext & Hne); split; assumption.
Defined.

(** ** No change without a record *)

Lemma close_unclosed_silent (env code : str) (fixes : list str) :
  snd (close_unclosed env (code, fixes)) = [] ->
  close_unclosed env (code, fixes) = (code, []).
Proof.
  unfold close_unclosed.
  destruct (_ <? _); cbn [snd].
  - intros H; apply app_eq_nil in H as [_ H]; discriminate.
  - now intros ->.
Qed.

Lemma ensure_document_structure_silent (code : str) :
  snd (ensure_document_structure code) = [] ->
  fst (ensure_document_structure code) = code.
Proof.
  unfold ensure_document_structure.
  destruct (negb (contains DOCUMENTCLASS code)).
  - destruct (negb (contains BEGIN_DOCUMENT _)); cbn; discriminate.
  - destruct (negb (contains BEGIN_DOCUMENT code)); cbn; [discriminate|auto].
Qed.

Lemma fix_brace_imbalance_silent (code : str) :
  snd (fix_brace_imbalance code) = [] -> fst (fix_brace_imbalance code) = code.
Proof.
  unfold fix_brace_imbalance; destruct (brace_totals code) as [o c].
  destruct (c <? o); [discriminate|].
  destruct (o <? c); [discriminate|reflexivity].
Qed.

Lemma fix_truncated_document_silent (code : str) :
  snd (fix_truncated_document code) = [] ->
  fst (fix_truncated_document code) = code.
Proof.
  unfold fix_truncated_document.
  destruct (negb (contains END_DOCUMENT code)); [|reflexivity].
  destruct (fold_left _ _ _) as [closed fixes]; cbn [snd].
  intros H; apply app_eq_nil in H as [_ H]; discriminate.
Qed.

Lemma apply_rule_silent (rule : str -> fixed) (st : fixed) :
  (forall code, snd (rule code) = [] -> fst (rule code) = code) ->
  snd (apply_rule rule st) = [] ->
  snd st = [] /\ fst (apply_rule rule st) = fst st.
Proof.
  intros Hrule; destruct st as [code all_fixes]; unfold apply_rule.
  specialize (Hrule code); destruct (rule code) as [code' fixes]; cbn [fst snd] in *.
  intros H; apply app_eq_nil in H as [-> ->]; auto.
Qed.

(** X9.  The repair engine never changes the document without recording a
    fix: when the fix list it returns is empty, the text it returns is the
    text it was given.  So the test for an empty fix list in the retry loop
    never lets a changed text go by. *)
Theorem comprehensive_fix_silent
        (re : usepackage_re) (code error_log : str) :
  snd (comprehensive_fix re code error_log) = [] ->
  fst (comprehensive_fix re code error_log) = code.
Proof.
  assert (Hstructural : snd (structural_fixes code) = [] ->
                        fst (structural_fixes code) = code).
  { unfold structural_fixes; intros H.
    apply apply_rule_silent in H as [H ->]; [|apply fix_truncated_document_silent].
    apply apply_rule_silent in H as [H ->]; [|apply fix_brace_imbalance_silent].
    apply apply_rule_silent in H as [H ->];
      [|intros c Hc; unfold fix_multicol_issues in *;
        now rewrite close_unclosed_silent].
    apply apply_rule_silent in H as [H ->];
      [|intros c Hc; unfold fix_description_issues in *;
        now rewrite close_unclosed_silent].
    apply apply_rule_silent in H as [H ->].
    2:{ intros c Hc; unfold fix_tabularx_issues in *.
        destruct (close_unclosed (lit "tabularx") (c, [])) as [c1 f1] eqn:H1.
        pose proof (close_unclosed_silent _ _ _ Hc) as H2.
        unfold close_unclosed in Hc, H2 |- *.
        destruct (_ <? _) in Hc, H2 |- *; cbn [fst snd] in *.
        - apply app_eq_nil in Hc as [_ Hc]; discriminate.
        - subst f1.
          rewrite (close_unclosed_silent (lit "tabularx") c []) in H1
            by now rewrite H1.
          now injection H1 as ->. }
    apply apply_rule_silent in H as [H ->];
      [|intros c Hc; unfold fix_lstlisting_issues in *;
        now rewrite close_unclosed_silent].
    apply apply_rule_silent in H as [_ ->];
      [reflexivity|apply ensure_document_structure_silent]. }
  unfold comprehensive_fix; intros H.
  destruct (search_undefined_environment error_log) as [env_name|].
  - apply apply_rule_silent in H as [H ->].
    2:{ intros c; unfold fix_undefined_environment.
        destruct (contains _ c); [discriminate|reflexivity]. }
    destruct (search_missing_package error_log) as [pkg_name|]; [|auto].
    apply apply_rule_silent in H as [H ->]; [auto|].
    intros c; unfold fix_package_not_found.
    destruct (re_search re pkg_name c); [discriminate|reflexivity].
  - destruct (search_missing_package error_log) as [pkg_name|]; [|auto].
    apply apply_rule_silent in H as [H ->]; [auto|].
    intros c; unfold fix_package_not_found.
    destruct (re_search re pkg_name c); [discriminate|reflexivity].
Qed.

Lemma comprehensive_fix_silent_witness :
  fst (comprehensive_fix literal_usepackage_re Samples.plain_document
                         (lit "! Emergency stop."))
  = Samples.plain_document.
Proof.
  apply (comprehensive_fix_silent literal_usepackage_re Samples.plain_document
           (lit "! Emergency stop.")).
  vm_compute; reflexivity.
Defined.

(** ** The facade over many requests *)

Lemma last_success_from (trace : list action) (found : option str) :
  fold_left
    (fun found a =>
       match a with
       | Finished true pdf_path _ _ => Some pdf_path
       | _ => found
       end)
    trace found
  = match last_success trace with
    | Some pdf_path => Some pdf_path
    | None => found
    end.
Proof.
  unfold last_success; revert found.
  induction trace as [|a trace IH]; intros found; [reflexivity|].
  cbn [fold_left]; rewrite IH.
  rewrite (IH (match a with Finished true pdf_path _ _ => Some pdf_path | _ => None end)).
  destruct (fold_left _ trace None); [reflexivity|].
  destruct a as [| [] | |]; reflexivity.
Qed.

(** X10.  Whatever signals a facade receives, over any number of requests,
    the stored path is the path of the last finished signal with success true,
    and the path stored before when there is none; the switches of the facade
    are not touched. *)
Theorem deliver_keeps_last_success
        (self : LatexCompiler.Facade) (trace : list action) :
  LatexCompiler.get_last_pdf_path (LatexCompiler.deliver self trace)
  = match last_success trace with
    | Some pdf_path => Some pdf_path
    | None => LatexCompiler.get_last_pdf_path self
    end
  /\ LatexCompiler.autofix (LatexCompiler.deliver self trace)
     = LatexCompiler.autofix self
  /\ LatexCompiler.quick_mode (LatexCompiler.deliver self trace)
     = LatexCompiler.quick_mode self
  /\ LatexCompiler.draft_mode (LatexCompiler.deliver self trace)
     = LatexCompiler.draft_mode self.
Proof.
  rewrite <- last_success_from.
  revert self; induction trace as [|a trace IH]; intros self; [now repeat split|].
  destruct a as [m|success pdf_path error fixes|c|f]; cbn [LatexCompiler.deliver fold_left];
    try apply IH.
  destruct (IH (fst (LatexCompiler._on_finished self success pdf_path error fixes)))
    as (H1 & H2 & H3 & H4).
  rewrite H1, H2, H3, H4; destruct success; now repeat split.
Qed.

(** ** The name of the output file *)

Lemma Forall_lstrip (P : ascii -> Prop) (s : str) :
  Forall P s -> Forall P (lstrip s).
Proof.
  induction 1 as [|c s Hc Hs IH]; cbn [lstrip]; [constructor|].
  destruct (isspace c); [exact IH|now constructor].
Qed.

Lemma Forall_strip (P : ascii -> Prop) (s : str) :
  Forall P s -> Forall P (strip s).
Proof.
  intros H; unfold strip.
  apply Forall_rev, Forall_lstrip, Forall_rev, Forall_lstrip, H.
Qed.

(** Replacing a one-character text works character by character. *)
Lemma replace_char (old new : ascii) (s : str) :
  replace [old] [new] s = map (fun c => if Ascii.eqb old c then new else c) s.
Proof.
  cbn [replace]; induction s as [|c s IH]; [reflexivity|].
  cbn [replace_from startswith length Nat.sub map].
  destruct (Ascii.eqb old c); cbn [andb app]; now rewrite IH.
Qed.

(** X11.  The name that [_on_compile] hands to the compiler has only
    letters, digits, hyphens and underscores, whatever was typed: no space, no
    dot and no path separator.  So the artifact of [_compile] for that name
    lies directly in the cache directory. *)
Theorem doc_name_is_safe (name_input : str) (pane_id : nat) (w : World) :
  forallb LatexPane.safe (LatexPane.doc_name name_input pane_id) = true
  /\ (temp_dir w <> [] ->
      last (temp_dir w) " "%char <> "/"%char ->
      path_join (temp_dir w) (LatexPane.doc_name name_input pane_id ++ lit ".pdf")
      = temp_dir w ++ lit "/" ++ LatexPane.doc_name name_input pane_id ++ lit ".pdf").
Proof.
  assert (Hsafe : forallb LatexPane.safe (LatexPane.doc_name name_input pane_id)
                  = true).
  { unfold LatexPane.doc_name.
    set (typed := match strip name_input with
                  | [] => lit "Document_" ++ of_nat pane_id
                  | _ :: _ => strip name_input
                  end).
    assert (Hkept : Forall (fun c => LatexPane.kept c = true)
                           (strip (filter LatexPane.kept typed))).
    { apply Forall_strip, Forall_forall; intros x Hx.
      now apply filter_In in Hx. }
    change (lit " ") with [" "%char]; change (lit "_") with ["_"%char].
    rewrite replace_char; apply forallb_forall; intros x Hx.
    apply in_map_iff in Hx as (y & Hxy & Hy).
    rewrite Forall_forall in Hkept; specialize (Hkept y Hy).
    destruct (Ascii.eqb " "%char y) eqn:Hspace; subst x; [reflexivity|].
    unfold LatexPane.kept in Hkept; unfold LatexPane.safe.
    destruct (LatexPane.isalnum y); [reflexivity|]; cbn [orb] in *.
    rewrite Ascii.eqb_sym in Hspace; rewrite Hspace in Hkept; exact Hkept. }
  split; [exact Hsafe|].
  intros Hdir Hlast; unfold path_join.
  assert (Hslash : startswith (lit "/")
                              (LatexPane.doc_name name_input pane_id ++ lit ".pdf")
                   = false).
  { destruct (LatexPane.doc_name name_input pane_id) as [|x name]; [reflexivity|].
    cbn [forallb] in Hsafe; apply andb_true_iff in Hsafe as [Hx _].
    cbn [app startswith lit String.list_ascii_of_string].
    destruct (Ascii.eqb_spec "/"%char x) as [<-|_]; [discriminate Hx|reflexivity]. }
  rewrite Hslash.
  destruct (temp_dir w) as [|d dir]; [contradiction|].
  destruct (Ascii.eqb_spec (last (d :: dir) " "%char) "/"%char);
    [contradiction|reflexivity].
Qed.

Lemma doc_name_is_safe_witness :
  LatexPane.doc_name (lit "  ../My report (v2).tex ") 1 = lit "My_report_v2tex"
  /\ path_join (temp_dir Samples.no_pdflatex)
               (LatexPane.doc_name (lit "  ../My report (v2).tex ") 1 ++ lit ".pdf")
     = temp_dir Samples.no_pdflatex ++ lit "/"
         ++ LatexPane.doc_name (lit "  ../My report (v2).tex ") 1 ++ lit ".pdf".
Proof.
  split; [vm_compute; reflexivity|].
  apply (proj2 (doc_name_is_safe (lit "  ../My report (v2).tex ") 1
                                 Samples.no_pdflatex)); discriminate.
Defined.

(** ** The cache directory *)

Lemma path_exists_created (disk : list str) (dir : str) :
  path_exists (dir :: disk) dir = true.
Proof. unfold path_exists; cbn [existsb]; now rewrite eqb_refl. Qed.

(** X12.  The cache directory is created once and then reused: after any
    call the returned directory exists and is remembered, and a second call
    returns the same directory without creating another, whatever [mkdtemp]
    would have returned. *)
Theorem get_cache_dir_reuses
        (mkdtemp mkdtemp' : list str -> str)
        (_cache_dir : option str) (disk : list str) :
  let '(_cache_dir1, disk1, dir) := get_cache_dir mkdtemp _cache_dir disk in
  path_exists disk1 dir = true
  /\ _cache_dir1 = Some dir
  /\ get_cache_dir mkdtemp' _cache_dir1 disk1 = (_cache_dir1, disk1, dir).
Proof.
  unfold get_cache_dir.
  destruct _cache_dir as [dir|].
  - destruct (path_exists disk dir) eqn:Hexists.
    + rewrite Hexists; auto.
    + rewrite path_exists_created; auto.
  - rewrite path_exists_created; auto.
Qed.

(** ** The count-based rules *)

Lemma startswith_seam (pat u v : str) (c : ascii) :
  ~ In c pat -> pat <> [] ->
  startswith pat (u ++ c :: v) = startswith pat u.
Proof.
  revert u; induction pat as [|p pat IH]; intros u Hc Hne; [contradiction|].
  destruct u as [|x u]; cbn [app startswith].
  - destruct (Ascii.eqb_spec p c) as [->|_]; [contradiction Hc; now left|reflexivity].
  - destruct pat as [|q pat].
    + now destruct (Ascii.eqb p x).
    + rewrite IH; [reflexivity| |discriminate].
      intros Hin; apply Hc; now right.
Qed.

(** A separator that is not in the marker splits the count. *)
Lemma count_from_seam (pat b : str) (c : ascii) :
  ~ In c pat -> pat <> [] ->
  forall a skip,
    skip <= length a ->
    count_from pat skip (a ++ c :: b) = count_from pat skip a + count_from pat 0 b.
Proof.
  intros Hc Hne; induction a as [|x a IH]; intros skip Hskip.
  - assert (skip = 0) by (cbn in Hskip; lia); subst skip.
    pose proof (startswith_seam pat [] b c Hc Hne) as Hs; cbn [app] in Hs.
    cbn [app count_from]; rewrite Hs.
    destruct pat; [contradiction|reflexivity].
  - cbn [app count_from]; destruct skip as [|skip].
    + change (x :: a ++ c :: b) with ((x :: a) ++ c :: b).
      rewrite (startswith_seam pat (x :: a) b c Hc Hne).
      destruct (startswith pat (x :: a)) eqn:Hs.
      * rewrite IH; [reflexivity|].
        apply startswith_length in Hs; cbn in Hs; lia.
      * apply IH; lia.
    + apply IH; cbn in Hskip; lia.
Qed.

Lemma count_from_absent (p : ascii) (pat s : str) :
  contains (p :: pat) s = false -> forall skip, count_from (p :: pat) skip s = 0.
Proof.
  induction s as [|c s IH]; intros H skip; [reflexivity|].
  rewrite contains_cons in H; apply orb_false_iff in H as [Hs Hc].
  cbn [count_from]; destruct skip; [rewrite Hs|]; now apply IH.
Qed.

Lemma count_from_self (p : ascii) (pat : str) :
  count_from (p :: pat) 0 (p :: pat) = 1.
Proof.
  cbn [count_from]; rewrite <- (app_nil_r (p :: pat)) at 2.
  rewrite startswith_app, count_from_skip; cbn [length Nat.sub].
  now rewrite Nat.sub_0_r, skipn_all.
Qed.

(** The count of a marker in a text followed by [n] copies of a line feed
    and a closing marker. *)
Lemma count_from_appended (pat closer code : str) (n : nat) :
  ~ In nl pat -> pat <> [] ->
  count_from pat 0 (code ++ times (nl :: closer) n)
  = count_from pat 0 code + n * count_from pat 0 closer.
Proof.
  intros Hnl Hne.
  assert (Hrun : forall m,
             count_from pat 0 (closer ++ times (nl :: closer) m)
             = S m * count_from pat 0 closer).
  { induction m as [|m IHm].
    - cbn [times repeat concat]; rewrite app_nil_r; lia.
    - change (times (nl :: closer) (S m))
        with (nl :: closer ++ times (nl :: closer) m).
      rewrite (count_from_seam pat _ nl Hnl Hne closer 0) by lia.
      rewrite IHm; lia. }
  destruct n as [|n].
  - cbn [times repeat concat]; rewrite app_nil_r; lia.
  - change (times (nl :: closer) (S n)) with (nl :: closer ++ times (nl :: closer) n).
    rewrite (count_from_seam pat _ nl Hnl Hne code 0) by lia.
    rewrite Hrun; lia.
Qed.

Lemma not_in_marker (c : ascii) (head env : str) :
  ~ In c head -> ~ In c env -> c <> "}"%char -> ~ In c (head ++ env ++ lit "}").
Proof.
  intros Hh He Hb Hin.
  apply in_app_or in Hin as [Hin|Hin]; [auto|].
  apply in_app_or in Hin as [Hin|[Hin|[]]]; auto.
Qed.

(** After a count-based rule the begin markers of its kind are as many as
    before and the end markers are as many as the larger of the two counts. *)
Lemma close_unclosed_counts (env code : str) (fixes : list str) :
  ~ In nl env ->
  let closed := fst (close_unclosed env (code, fixes)) in
  count (lit "\begin{" ++ env ++ lit "}") closed
  = count (lit "\begin{" ++ env ++ lit "}") code
  /\ count (lit "\end{" ++ env ++ lit "}") closed
     = Nat.max (count (lit "\begin{" ++ env ++ lit "}") code)
               (count (lit "\end{" ++ env ++ lit "}") code).
Proof.
  intros Henv; cbn zeta; unfold close_unclosed.
  set (opener := lit "\begin{" ++ env ++ lit "}").
  set (closer := lit "\end{" ++ env ++ lit "}").
  destruct (count closer code <? count opener code) eqn:Hlt; cbn [fst].
  - apply Nat.ltb_lt in Hlt.
    change ([nl] ++ closer) with (nl :: closer).
    assert (Hopener : ~ In nl opener).
    { apply not_in_marker; auto; cbn; intuition discriminate. }
    assert (Hcloser : ~ In nl closer).
    { apply not_in_marker; auto; cbn; intuition discriminate. }
    change (count opener) with (count_from opener 0) in *.
    change (count closer) with (count_from closer 0) in *.
    rewrite !count_from_appended by (auto; discriminate).
    assert (Hnone : count_from opener 0 closer = 0).
    { apply (count_from_absent "\"%char), not_contains_occurs.
      intros (before & after & Heq); apply (f_equal (@length ascii)) in Heq.
      unfold closer, lit in Heq; cbn [String.list_ascii_of_string app] in Heq.
      repeat (rewrite ?length_app in Heq; cbn [length] in Heq); lia. }
    assert (Hself : count_from closer 0 closer = 1)
      by apply (count_from_self "\"%char (lit "end{" ++ env ++ lit "}")).
    rewrite Hnone, Hself; lia.
  - apply Nat.ltb_ge in Hlt; lia.
Qed.

(** X13.  A count-based rule leaves no block of its kind unclosed: after it
    the end markers of the kind are not fewer than the begin markers, whose
    number it does not change; and run again on its own result it changes
    nothing and records nothing.  This holds for the listing, description and
    multi-column rules alike. *)
Theorem close_unclosed_closes (code : str) :
  forall rule env,
    In (rule, env)
       [(fix_lstlisting_issues, lit "lstlisting");
        (fix_description_issues, lit "description");
        (fix_multicol_issues, lit "multicols")] ->
    let closed := fst (rule code) in
    count (lit "\begin{" ++ env ++ lit "}") closed
    = count (lit "\begin{" ++ env ++ lit "}") code
    /\ count (lit "\begin{" ++ env ++ lit "}") closed
       <= count (lit "\end{" ++ env ++ lit "}") closed
    /\ rule closed = (closed, []).
Proof.
  assert (Hgen : forall env,
             ~ In nl env ->
             let closed := fst (close_unclosed env (code, [])) in
             count (lit "\begin{" ++ env ++ lit "}") closed
             = count (lit "\begin{" ++ env ++ lit "}") code
             /\ count (lit "\begin{" ++ env ++ lit "}") closed
                <= count (lit "\end{" ++ env ++ lit "}") closed
             /\ close_unclosed env (closed, []) = (closed, [])).
  { intros env Henv; cbn zeta.
    destruct (close_unclosed_counts env code [] Henv) as [Hb He].
    split; [exact Hb|]; split; [lia|].
    unfold close_unclosed at 1.
    replace (_ <? _) with false; [reflexivity|].
    symmetry; apply Nat.ltb_ge; lia. }
  intros rule env Hin; cbn [In] in Hin.
  destruct Hin as [[= <- <-]|[[= <- <-]|[[= <- <-]|[]]]];
    apply Hgen; cbn; intuition discriminate.
Qed.

Lemma close_unclosed_closes_witness :
  fst (fix_description_issues
         (lit "\begin{description}\begin{description}\end{description}"))
  = lit "\begin{description}\begin{description}\end{description}"
        ++ [nl] ++ lit "\end{description}"
  /\ fix_description_issues
       (fst (fix_description_issues
               (lit "\begin{description}\begin{description}\end{description}")))
     = (fst (fix_description_issues
               (lit "\begin{description}\begin{description}\end{description}")), []).
Proof.
  split; [vm_compute; reflexivity|].
  apply (close_unclosed_closes
           (lit "\begin{description}\begin{description}\end{description}")
           fix_description_issues (lit "description")).
  cbn; auto.
Defined.

(** A count-based rule does not change the count of a marker that does not
    occur in its closing marker. *)
Lemma close_unclosed_other (p : ascii) (pat env code : str) (fixes : list str) :
  ~ In nl (p :: pat) ->
  count_from (p :: pat) 0 (lit "\end{" ++ env ++ lit "}") = 0 ->
  count (p :: pat) (fst (close_unclosed env (code, fixes))) = count (p :: pat) code.
Proof.
  intros Hnl Hnone; unfold close_unclosed.
  destruct (_ <? _); cbn [fst]; [|reflexivity].
  change ([nl] ++ lit "\end{" ++ env ++ lit "}")
    with (nl :: lit "\end{" ++ env ++ lit "}").
  cbn [count]; rewrite count_from_appended by (auto; discriminate).
  rewrite Hnone; lia.
Qed.

(** X14.  The table rule closes both of its kinds: after it neither the
    tabularx nor the longtable blocks have fewer end than begin markers, the
    begin markers are as many as before, and the rule run again on its own
    result changes nothing and records nothing. *)
Theorem fix_tabularx_issues_closes (code : str) :
  let closed := fst (fix_tabularx_issues code) in
  (forall env,
      In env [lit "tabularx"; lit "longtable"] ->
      count (lit "\begin{" ++ env ++ lit "}") closed
      = count (lit "\begin{" ++ env ++ lit "}") code
      /\ count (lit "\begin{" ++ env ++ lit "}") closed
         <= count (lit "\end{" ++ env ++ lit "}") closed)
  /\ fix_tabularx_issues closed = (closed, []).
Proof.
  cbn zeta; unfold fix_tabularx_issues.
  destruct (close_unclosed (lit "tabularx") (code, [])) as [c1 f1] eqn:H1.
  assert (Hc1 : c1 = fst (close_unclosed (lit "tabularx") (code, [])))
    by now rewrite H1.
  assert (Htab : ~ In nl (lit "tabularx")) by (cbn; intuition discriminate).
  assert (Hlong : ~ In nl (lit "longtable")) by (cbn; intuition discriminate).
  destruct (close_unclosed_counts (lit "tabularx") code [] Htab) as [Tb Te].
  destruct (close_unclosed_counts (lit "longtable") c1 f1 Hlong) as [Lb Le].
  rewrite <- Hc1 in Tb, Te.
  set (closed := fst (close_unclosed (lit "longtable") (c1, f1))) in *.
  assert (Tb' : count (lit "\begin{" ++ lit "tabularx" ++ lit "}") closed
                = count (lit "\begin{" ++ lit "tabularx" ++ lit "}") c1).
  { apply close_unclosed_other; [cbn; intuition discriminate|reflexivity]. }
  assert (Te' : count (lit "\end{" ++ lit "tabularx" ++ lit "}") closed
                = count (lit "\end{" ++ lit "tabularx" ++ lit "}") c1).
  { apply close_unclosed_other; [cbn; intuition discriminate|reflexivity]. }
  assert (Lb' : count (lit "\begin{" ++ lit "longtable" ++ lit "}") c1
                = count (lit "\begin{" ++ lit "longtable" ++ lit "}") code).
  { rewrite Hc1; apply close_unclosed_other;
      [cbn; intuition discriminate|reflexivity]. }
  split.
  - intros env [<-|[<-|[]]]; split; lia.
  - assert (Hidle : forall env fixes,
               count (lit "\begin{" ++ env ++ lit "}") closed
               <= count (lit "\end{" ++ env ++ lit "}") closed ->
               close_unclosed env (closed, fixes) = (closed, fixes)).
    { intros env fixes Hle; unfold close_unclosed.
      replace (_ <? _) with false; [reflexivity|].
      symmetry; apply Nat.ltb_ge; exact Hle. }
    rewrite (Hidle (lit "tabularx")) by lia.
    apply Hidle; lia.
Qed.

(** ** The structure rule *)

Lemma split_lines_nonempty (s : str) : split_lines s <> [].
Proof.
  destruct s as [|c s]; cbn [split_lines]; [discriminate|].
  destruct (Ascii.eqb c nl); [discriminate|].
  destruct (split_lines s); discriminate.
Qed.

Lemma join_lines_cons (l : str) (ls : list str) :
  ls <> [] -> join_lines (l :: ls) = l ++ nl :: join_lines ls.
Proof. destruct ls; [contradiction|reflexivity]. Qed.

(** Splitting at the line feeds and joining again gives the text back. *)
Lemma join_split_lines (s : str) : join_lines (split_lines s) = s.
Proof.
  induction s as [|c s IH]; [reflexivity|].
  cbn [split_lines]; destruct (Ascii.eqb_spec c nl) as [->|_].
  - rewrite join_lines_cons by apply split_lines_nonempty.
    now rewrite IH.
  - destruct (split_lines s) as [|l ls] eqn:Hs; [now apply split_lines_nonempty in Hs|].
    rewrite <- IH; destruct ls; reflexivity.
Qed.

Lemma occurs_line_join (l : str) (ls : list str) :
  In l ls -> occurs l (join_lines ls).
Proof.
  induction ls as [|x ls IH]; intros Hin; [contradiction|].
  destruct Hin as [<-|Hin].
  - destruct ls as [|y ls]; [exists [], []; now rewrite app_nil_r|].
    rewrite join_lines_cons by discriminate; exists [], (nl :: join_lines (y :: ls)).
    reflexivity.
  - destruct ls as [|y ls]; [contradiction|].
    rewrite join_lines_cons by discriminate.
    apply occurs_app_r, (occurs_app_r _ [nl]), IH, Hin.
Qed.

Lemma occurs_trans (pat l s : str) : occurs pat l -> occurs l s -> occurs pat s.
Proof.
  intros (a & b & ->) (c & d & ->); exists (c ++ a), (b ++ d).
  now rewrite <- !app_assoc.
Qed.

(** A text without a line feed that occurs in the joined lines occurs in
    one of them. *)
Lemma occurs_join_line (p : ascii) (pat : str) (ls : list str) :
  ~ In nl (p :: pat) ->
  occurs (p :: pat) (join_lines ls) -> exists l, In l ls /\ occurs (p :: pat) l.
Proof.
  intros Hnl; induction ls as [|x ls IH]; intros Hocc.
  - now apply occurs_nil in Hocc.
  - destruct ls as [|y ls]; [exists x; split; [now left|exact Hocc]|].
    rewrite join_lines_cons in Hocc by discriminate.
    apply occurs_app_cases in Hocc as [H|[H|H]].
    + exists x; split; [now left|exact H].
    + apply occurs_cons_other in H; [|intros ->; apply Hnl; now left].
      destruct (IH H) as (l & Hl & Ho); exists l; split; [now right|exact Ho].
    + destruct H as (p1 & p2 & x' & y' & Hpat & _ & Hp2 & _ & Hy).
      destruct p2 as [|c p2]; [contradiction|].
      injection Hy as <- _; contradiction Hnl.
      rewrite Hpat; apply in_or_app; right; now left.
Qed.

Lemma in_list_insert {A} (i : nat) (x y : A) (l : list A) :
  In y (list_insert i x l) <-> y = x \/ In y l.
Proof.
  unfold list_insert; rewrite in_app_iff; cbn [In].
  rewrite <- (firstn_skipn i l) at 3; rewrite in_app_iff; intuition.
Qed.

(** X15.  After the structure rule the document has a class declaration and
    a begin-document marker, whatever it was given; at most two fixes are
    recorded; and the rule run again on its own result changes nothing and
    records nothing. *)
Theorem ensure_document_structure_ensures (code : str) :
  let ensured := fst (ensure_document_structure code) in
  contains DOCUMENTCLASS ensured = true
  /\ contains BEGIN_DOCUMENT ensured = true
  /\ length (snd (ensure_document_structure code)) <= 2
  /\ ensure_document_structure ensured = (ensured, []).
Proof.
  cbn zeta.
  assert (Hgoal : contains DOCUMENTCLASS (fst (ensure_document_structure code)) = true
                  /\ contains BEGIN_DOCUMENT (fst (ensure_document_structure code)) = true
                  /\ length (snd (ensure_document_structure code)) <= 2).
  { unfold ensure_document_structure.
    set (declared := if negb (contains DOCUMENTCLASS code)
                     then (lit "\documentclass[12pt]{article}" ++ [nl] ++ code,
                           [lit "Added missing \documentclass"])
                     else (code, [])).
    assert (Hclass : contains DOCUMENTCLASS (fst declared) = true
                     /\ length (snd declared) <= 1).
    { subst declared; destruct (contains DOCUMENTCLASS code) eqn:Hc; cbn [negb fst snd].
      - split; [exact Hc|cbn; lia].
      - split; [|cbn; lia].
        apply (contains_app DOCUMENTCLASS [] (lit "[12pt]{article}" ++ [nl] ++ code)). }
    destruct declared as [code1 fixes1]; cbn [fst snd] in Hclass.
    destruct Hclass as [Hclass Hfixes].
    destruct (contains BEGIN_DOCUMENT code1) eqn:Hb; cbn [negb fst snd].
    - repeat split; auto; lia.
    - set (insert_idx := fold_left _ _ 0).
      repeat split.
      + apply contains_occurs; apply contains_occurs in Hclass.
        rewrite <- (join_split_lines code1) in Hclass.
        apply (occurs_join_line "\"%char) in Hclass as (l & Hl & Ho);
          [|cbn; intuition discriminate].
        apply (occurs_trans _ l); [exact Ho|].
        apply occurs_line_join, in_list_insert; now right.
      + apply contains_occurs, occurs_line_join, in_list_insert; now left.
      + rewrite length_app; cbn; lia. }
  destruct Hgoal as (Hclass & Hbegin & Hfixes).
  repeat split; auto.
  unfold ensure_document_structure at 1.
  rewrite Hclass; cbn [negb]; now rewrite Hbegin.
Qed.

(** ** The truncation rule *)

Lemma pop_matching_ends (ends : list str) :
  forall open_envs,
    exists k,
      fold_left
        (fun open_envs env =>
           match open_envs with
           | [] => open_envs
           | _ :: _ =>
               if eqb env (last open_envs []) then removelast open_envs
               else open_envs
           end)
        ends open_envs
      = firstn k open_envs
      /\ length open_envs - length ends <= k <= length open_envs.
Proof.
  induction ends as [|env ends IH]; intros open_envs; cbn [fold_left].
  - exists (length open_envs); rewrite firstn_all; split; [reflexivity|cbn; lia].
  - destruct open_envs as [|top open_envs].
    + destruct (IH []) as (k & -> & Hk); exists 0; rewrite !firstn_nil.
      split; [reflexivity|cbn; lia].
    + destruct (eqb env (last (top :: open_envs) [])).
      * destruct (IH (removelast (top :: open_envs))) as (k & -> & Hk).
        rewrite removelast_firstn_len, firstn_firstn in *.
        rewrite length_firstn in Hk; cbn [length] in *.
        exists (Nat.min k (Nat.pred (S (length open_envs)))); split; [reflexivity|lia].
      * destruct (IH (top :: open_envs)) as (k & -> & Hk).
        exists k; split; [reflexivity|cbn [length] in *; lia].
Qed.

(** X16.  The environments that the truncation rule closes are the first
    begin markers of the document, in the order in which they occur: an end
    marker can only take the last one away, never add or reorder; and each end
    marker takes away at most one. *)
Theorem open_environments_prefix (code : str) :
  exists k,
    open_environments code = firstn k (finditer_env (lit "\begin{") 0 code)
    /\ length (finditer_env (lit "\begin{") 0 code)
       - length (finditer_env (lit "\end{") 0 code)
       <= length (open_environments code)
       <= length (finditer_env (lit "\begin{") 0 code).
Proof.
  unfold open_environments.
  rewrite (fold_left_push _ []); cbn [app].
  destruct (pop_matching_ends (finditer_env (lit "\end{") 0 code)
                              (finditer_env (lit "\begin{") 0 code))
    as (k & Heq & Hk).
  exists k; rewrite Heq; split; [reflexivity|].
  rewrite length_firstn; unfold str in *; lia.
Qed.

(** X17.  The truncation rule only appends: the document it is given is the
    beginning of the document it returns.  The result has the end-document
    marker, the rule records one fix for every environment it closes and one
    for the marker, and run again on its own result it changes nothing and
    records nothing. *)
Theorem fix_truncated_document_appends_only (code : str) :
  let completed := fst (fix_truncated_document code) in
  (exists appended, completed = code ++ appended)
  /\ contains END_DOCUMENT completed = true
  /\ length (snd (fix_truncated_document code))
     = (if contains END_DOCUMENT code then 0
        else S (length (open_environments code)))
  /\ fix_truncated_document completed = (completed, []).
Proof.
  cbn zeta; pose proof (fix_truncated_document_ends code) as Hends.
  repeat split.
  - destruct (contains END_DOCUMENT code) eqn:Hc.
    + exists []; unfold fix_truncated_document; rewrite Hc, app_nil_r; reflexivity.
    + eexists; apply fix_truncated_document_appends, Hc.
  - exact Hends.
  - unfold fix_truncated_document.
    destruct (contains END_DOCUMENT code); cbn [negb]; [reflexivity|].
    rewrite fold_left_closers; cbn [snd app].
    rewrite length_app, length_map, length_rev; cbn; lia.
  - unfold fix_truncated_document at 1; now rewrite Hends.
Qed.

(** ** The end of a run *)

(** X18.  A run in which every call of [_compile] comes back, and in
    which no package name read from a diagnostic makes the pattern of the
    package rule fail to compile, returns; it calls [_compile] at least once
    and at most six times, and its one finished signal reports the last call:
    when that call succeeded, success with the path it returned and no error
    text; when it failed, failure with the error text it returned and no
    path. *)
Theorem run_reports_last_call
        (re : usepackage_re) (re_error : str -> bool) (self : Worker)
        (worlds : nat -> World) (calls : nat -> call_end) :
  (forall k, calls k = CallReturns) ->
  (forall k code pkg_name,
      search_missing_package (snd (_compile self (worlds k) code)) = Some pkg_name ->
      re_error pkg_name = false) ->
  exists trace,
    run_checked re re_error self worlds calls = (trace, Returned)
    /\ 1 <= compile_calls trace <= 6
    /\ let last_call :=
         _compile self (worlds (compile_calls trace - 1))
                  (last (compiled trace) []) in
       exists fixes,
         finished_signals trace
         = [if fst (fst last_call)
            then Finished true (snd (fst last_call)) [] fixes
            else Finished false [] (snd last_call) fixes].
Proof.
  intros Hcalls Hnames.
  exists (run re self worlds); split.
  { unfold run_checked, run; now apply run_bounded_checked_returns. }
  cbn zeta.
  destruct (run_bounded_end re MAX_FIX_ATTEMPTS self worlds)
    as (pre & Heq & Hfin & Hbound & _).
  fold (run re self worlds) in Heq.
  assert (Hcompiled : compiled (run re self worlds) = compiled pre).
  { rewrite Heq, compiled_app.
    destruct (_compile _ _ _) as [[[] p] e]; cbn; apply app_nil_r. }
  assert (Hn : compile_calls (run re self worlds) = compile_calls pre)
    by (unfold compile_calls; now rewrite Hcompiled).
  rewrite Hn, Hcompiled.
  split; [cbn in Hbound; lia|].
  exists (extended_fixes pre).
  rewrite Heq, finished_signals_app, Hfin.
  destruct (_compile self (worlds (compile_calls pre - 1)) (last (compiled pre) []))
    as [[[] p] e]; reflexivity.
Qed.

Lemma run_reports_last_call_witness :
  let self := Samples.worker_for Samples.plain_document true false in
  let worlds := fun _ : nat =>
                  Samples.after_passes
                    (Some (lit "! LaTeX Error: File `foo.sty' not found.")) false in
  search_missing_package (snd (_compile self (worlds 0) Samples.plain_document))
  = Some (lit "foo")
  /\ exists trace,
      run_checked literal_usepackage_re paren_error self worlds
                  (fun _ => CallReturns)
      = (trace, Returned)
      /\ 1 <= compile_calls trace <= 6.
Proof.
  intros self worlds; split; [vm_compute; reflexivity|].
  destruct (run_reports_last_call literal_usepackage_re paren_error self worlds
              (fun _ => CallReturns))
    as (trace & Hrun & Hcalls & _).
  - reflexivity.
  - intros k code pkg_name H.
    assert (Hfound : search_missing_package
                       (snd (_compile self (worlds k) code)) = Some (lit "foo"))
      by (vm_compute; reflexivity).
    rewrite Hfound in H; injection H as <-; reflexivity.
  - exists trace; split; assumption.
Defined.

(** ** The compile button *)

Lemma lstrip_nil (s : str) : lstrip s = [] <-> forallb isspace s = true.
Proof.
  induction s as [|c s IH]; cbn [lstrip forallb]; [tauto|].
  destruct (isspace c); cbn [andb]; [exact IH|]; split; discriminate.
Qed.

Lemma lstrip_head (s : str) (c : ascii) (t : str) :
  lstrip s = c :: t -> isspace c = false /\ In c s.
Proof.
  induction s as [|x s IH]; cbn [lstrip]; [discriminate|].
  destruct (isspace x) eqn:Hx.
  - intros H; destruct (IH H); split; [assumption|now right].
  - intros [= -> _]; split; [assumption|now left].
Qed.

Lemma strip_nil (s : str) : strip s = [] <-> forallb isspace s = true.
Proof.
  unfold strip; split.
  - intros H; apply (f_equal (@rev ascii)) in H; rewrite rev_involutive in H.
    cbn [rev] in H; apply lstrip_nil in H.
    destruct (lstrip s) as [|c t] eqn:Hl; [now apply lstrip_nil|].
    destruct (lstrip_head s c t Hl) as [Hc _].
    rewrite forallb_forall in H.
    rewrite (H c) in Hc; [discriminate|].
    apply in_rev; rewrite rev_involutive; now left.
  - intros H; apply lstrip_nil in H; now rewrite H.
Qed.

(** X19.  The compile button sends nothing to the compiler exactly when the
    editor holds only white space (or nothing); otherwise it sends the text of
    the editor as it is, not stripped, with the sanitized name. *)
Theorem _on_compile_skips_blank (editor_text name_input : str) (pane_id : nat) :
  (LatexPane._on_compile editor_text name_input pane_id = None
   <-> forallb isspace editor_text = true)
  /\ (forallb isspace editor_text = false ->
      LatexPane._on_compile editor_text name_input pane_id
      = Some (editor_text, LatexPane.doc_name name_input pane_id)).
Proof.
  unfold LatexPane._on_compile.
  pose proof (strip_nil editor_text) as Hblank.
  destruct (strip editor_text) as [|c t]; split.
  - split; [intros _; now apply Hblank|reflexivity].
  - intros H; rewrite (proj1 Hblank eq_refl) in H; discriminate.
  - split; [discriminate|].
    intros H; apply Hblank in H; discriminate.
  - reflexivity.
Qed.
